(** * ErgoFightStaticEnv: a shallow embedding of
      [gym_vrep/envs/ergo_fight_static_env.py]

    The environment is a thin adapter over an external simulator (the
    [vrepper] binding).  The embedding keeps the adapter's own state as a
    record, threads it through a small state-and-exception monad, and
    records every call made to the simulator in a log, so that "which
    commands reach the simulator" is a property of that log.

    Numbers: Python integers are [Z]; joint angles and actions are exact
    rationals [Q] (the source uses floats; all statements here are about
    exact arithmetic and the final [astype('float32')] of the observation
    is the identity in this model). *)

From Stdlib Require Import ZArith QArith Qminmax List Bool Ascii String Lia Lqa.
From Stdlib Require Import DecimalString.
Import ListNotations.

Set Implicit Arguments.

(** ** Exceptions and the two monads *)

Inductive exn : Type :=
| IndexError
| ZeroDivisionError
| AttributeError
| ValueError.

Inductive result (A : Type) : Type :=
| Ok (a : A)
| Raise (e : exn).

Arguments Ok {A} a.
Arguments Raise {A} e.

Class Monad (m : Type -> Type) : Type := {
  ret : forall {A : Type}, A -> m A;
  bind : forall {A B : Type}, m A -> (A -> m B) -> m B
}.

Notation "x <- c1 ;; c2" := (bind c1 (fun x => c2))
  (at level 61, c1 at next level, right associativity).
Notation "c1 ;;; c2" := (bind c1 (fun _ => c2))
  (at level 61, right associativity).

#[global] Instance result_Monad : Monad result := {
  ret := fun A a => Ok a;
  bind := fun A B c k => match c with Ok a => k a | Raise e => Raise e end
}.

(** A computation over a mutable state [S] that may raise: the state
    reached when the exception is raised is kept, as in Python. *)
Definition M (S A : Type) : Type := S -> S * result A.

#[global] Instance M_Monad (S : Type) : Monad (M S) := {
  ret := fun A a s => (s, Ok a);
  bind := fun A B c k s =>
    match c s with
    | (s', Ok a) => k a s'
    | (s', Raise e) => (s', Raise e)
    end
}.

Definition lift {S A : Type} (r : result A) : M S A := fun s => (s, r).
Definition gets {S A : Type} (f : S -> A) : M S A := fun s => (s, Ok (f s)).
Definition modify {S : Type} (f : S -> S) : M S unit := fun s => (f s, Ok tt).

(** [for x in l: body x] *)
Fixpoint for_each {S A : Type} (l : list A) (body : A -> M S unit) : M S unit :=
  match l with
  | [] => ret tt
  | x :: l' => body x ;;; for_each l' body
  end.

(** [out = []; for x in l: out.append(f x)] for a body without effects. *)
Fixpoint collect {A B : Type} (l : list A) (f : A -> result B) : result (list B) :=
  match l with
  | [] => Ok []
  | x :: l' => y <- f x ;; ys <- collect l' f ;; ret (y :: ys)
  end.

Definition range (n : nat) : list nat := seq 0 n.

Definition enumerate {A : Type} (l : list A) : list (nat * A) :=
  combine (seq 0 (List.length l)) l.

(** [l[i]] for a non-negative index. *)
Definition index {A : Type} (l : list A) (i : nat) : result A :=
  match nth_error l i with
  | Some x => Ok x
  | None => Raise IndexError
  end.

(** [a / b], true division on exact numbers.  A zero divisor raises, as
    it does on Python numbers; every statement below that goes through a
    division assumes the divisor is not zero. *)
Definition truediv (a b : Q) : result Q :=
  if Qeq_bool b 0 then Raise ZeroDivisionError else Ok (a / b)%Q.

(** [np.clip(a, lo, hi)], elementwise: [minimum(maximum(a, lo), hi)], on
    arrays that hold numbers.  A float array can also hold NaN, which
    [np.clip] leaves as it is: [WithNaN.clip] below covers that case. *)
Definition clip (a : list Q) (lo hi : Q) : list Q :=
  map (fun x => Qmin (Qmax x lo) hi) a.

(** ** Module constants *)

Definition REST_POS : list Z := [0; 0; 0; 0; 0; 0]%Z.

Definition RANDOM_NOISE : list (Z * Z) :=
  [(-90, 90); (-30, 30); (-30, 30); (-45, 45); (-30, 30); (-30, 30)]%Z.

Definition INVULNERABILITY_AFTER_HIT : Z := 3.

(** ** The simulator, seen from the adapter *)

(** An object handle returned by the simulator for a name. *)
Record SimObject : Type := {
  obj_name : string;
  is_joint : bool
}.

Definition SimObject_eqb (a b : SimObject) : bool :=
  String.eqb (obj_name a) (obj_name b) && Bool.eqb (is_joint a) (is_joint b).

(** The calls the adapter makes on the simulator binding. *)
Inductive SimCall : Type :=
| start (headless : bool)
| load_scene (path : string)
| get_object_by_name (name : string) (is_joint : bool)
| get_collision_object (name : string)
| stop_simulation
| start_simulation (is_sync : bool)
| step_blocking_simulation
| set_position_target (m : SimObject) (pos : Q)
| get_joint_angle (m : SimObject)
| get_joint_velocity (m : SimObject)
| get_image (cam : SimObject)
| is_colliding
| end_session.

Definition show_nat (n : nat) : string := NilEmpty.string_of_uint (Nat.to_uint n).

(** ['r{}m{}'.format(robot_idx + 1, motor_idx + 1)] *)
Definition motor_name (robot_idx motor_idx : nat) : string :=
  ("r" ++ show_nat (robot_idx + 1) ++ "m" ++ show_nat (motor_idx + 1))%string.

(** The position target most recently commanded to motor [m] in a log
    (most recent call first), if any. *)
Fixpoint commanded (m : SimObject) (log : list SimCall) : option Q :=
  match log with
  | [] => None
  | set_position_target m' v :: log' =>
      if SimObject_eqb m m' then Some v else commanded m log'
  | _ :: log' => commanded m log'
  end.

(** ** The environment *)

Section ErgoFightStaticEnv.

(** [JOINT_LIMITS] comes from [gym_vrep.envs.constants]: one [(min, max)]
    pair per joint.  The table is a parameter of the development. *)
Variable JOINT_LIMITS : list (Q * Q).

(** Camera images are opaque to the adapter. *)
Variable Image : Type.

(** The global NumPy generator: its state, [np.random.seed] and
    [np.random.randint(low, high, size=1)[0]]. *)
Variable Rng : Type.
Variable np_random_seed : option Z -> Rng.
Variable np_random_randint : Z -> Z -> Rng -> Z * Rng.

(** What the simulator answers while one operation runs. *)
Record Readings : Type := {
  joint_angle_of : SimObject -> Q;
  joint_velocity_of : SimObject -> Q;
  camera_image : Image;
  colliding : bool
}.

(** The instance attributes.  [done] and [observation] are created
    after construction, so they are optional; [venv] is the log of the
    calls made on the simulator, most recent first; [np_random] is the
    module-global generator state, carried along with the instance. *)
Record Env : Type := mkEnv {
  headless : bool;
  venv : list SimCall;
  motors : list SimObject * list SimObject;
  sword_collision : string;
  cam : SimObject;
  diffs : list Q;
  frames_after_hit : Z;
  done : option bool;
  observation : option (Image * list Q);
  np_random : Rng
}.

Definition set_venv (v : list SimCall) (e : Env) : Env :=
  mkEnv (headless e) v (motors e) (sword_collision e) (cam e) (diffs e)
        (frames_after_hit e) (done e) (observation e) (np_random e).

Definition set_frames_after_hit (f : Z) (e : Env) : Env :=
  mkEnv (headless e) (venv e) (motors e) (sword_collision e) (cam e) (diffs e)
        f (done e) (observation e) (np_random e).

Definition set_done (d : bool) (e : Env) : Env :=
  mkEnv (headless e) (venv e) (motors e) (sword_collision e) (cam e) (diffs e)
        (frames_after_hit e) (Some d) (observation e) (np_random e).

Definition set_observation (o : Image * list Q) (e : Env) : Env :=
  mkEnv (headless e) (venv e) (motors e) (sword_collision e) (cam e) (diffs e)
        (frames_after_hit e) (done e) (Some o) (np_random e).

Definition set_np_random (r : Rng) (e : Env) : Env :=
  mkEnv (headless e) (venv e) (motors e) (sword_collision e) (cam e) (diffs e)
        (frames_after_hit e) (done e) (observation e) r.

(** One call on the simulator. *)
Definition call (c : SimCall) : M Env unit :=
  modify (fun e => set_venv (c :: venv e) e).

(** Reading an attribute that may not have been created yet. *)
Definition getattr {A : Type} (f : Env -> option A) : M Env A :=
  fun e => match f e with
           | Some a => (e, Ok a)
           | None => (e, Raise AttributeError)
           end.

Definition randint (low high : Z) : M Env Z :=
  fun e => let p := np_random_randint low high (np_random e) in
           (set_np_random (snd p) e, Ok (fst p)).

(** *** Construction *)

Definition scene_path : string :=
  "/../scenes/poppy_ergo_jr_fight_sword1.ttt".

(** [_startEnv] runs before the other attributes exist: its state is the
    simulator log and the pair [self.motors]. *)
Definition StartState : Type :=
  (list SimCall * (list SimObject * list SimObject))%type.

Definition venv_call (c : SimCall) : M StartState unit :=
  modify (fun s => match s with (log, ms) => (c :: log, ms) end).

(** [self.motors[robot_idx].append(motor)] on the pair of lists. *)
Definition motors_append (robot_idx : nat) (motor : SimObject)
  : M StartState unit :=
  fun s =>
    match s, robot_idx with
    | (log, (arm_a, arm_b)), 0%nat => ((log, (arm_a ++ [motor], arm_b)), Ok tt)
    | (log, (arm_a, arm_b)), 1%nat => ((log, (arm_a, arm_b ++ [motor])), Ok tt)
    | _, _ => (s, Raise IndexError)
    end.

(** Every call on the simulator is taken to return.  In the source an
    error of the binding (no connection, no scene, an unknown name)
    propagates and aborts the construction. *)
Definition _startEnv (hl : bool) : M StartState unit :=
  venv_call (start hl) ;;;
  venv_call (load_scene scene_path) ;;;
  modify (fun s => match s with (log, _) => (log, ([], [])) end) ;;;
  for_each (range 2)
    (fun robot_idx =>
       for_each (range 6)
         (fun motor_idx =>
            let name := motor_name robot_idx motor_idx in
            venv_call (get_object_by_name name true) ;;;
            motors_append robot_idx (Build_SimObject name true))) ;;;
  venv_call (get_collision_object "sword_hit") ;;;
  venv_call (get_object_by_name "cam" false).

(** The constructor.  The [gym] spaces and the metadata it also sets are
    not read by any method and are left out. *)
Definition __init__ (hl : bool) (g : Rng) : result Env :=
  match _startEnv hl ([], ([], [])) with
  | (_, Raise x) => Raise x
  | (s, Ok _) =>
      ds <- collect (range 6)
              (fun i => hi <- index JOINT_LIMITS i ;;
                        lo <- index JOINT_LIMITS i ;;
                        ret (snd hi - fst lo)%Q) ;;
      ret {| headless := hl;
             venv := fst s;
             motors := snd s;
             sword_collision := "sword_hit";
             cam := Build_SimObject "cam" false;
             diffs := ds;
             frames_after_hit := (-1)%Z;
             done := None;
             observation := None;
             np_random := g |}
  end.

(** [np.random.seed(seed)].  With [None] NumPy takes fresh entropy from
    the operating system: the state it reaches is an input, [entropy].
    An integer seed must lie in [0, 2**32 - 1]; NumPy raises a value
    error for any other, and the generator keeps its state. *)
Definition _seed (seed : option Z) (entropy : Rng) : M Env unit :=
  match seed with
  | None => modify (set_np_random entropy)
  | Some s =>
      if ((0 <=? s) && (s <? 2 ^ 32))%Z
      then modify (set_np_random (np_random_seed (Some s)))
      else lift (Raise ValueError)
  end.

(** *** Normalisation *)

Definition _normalize (self : Env) (pos : list Q) : result (list Q) :=
  collect (range 6)
    (fun i => x <- index pos i ;;
              lim <- index JOINT_LIMITS i ;;
              d <- index (diffs self) i ;;
              shifted <- truediv (x - fst lim)%Q d ;;
              ret (shifted * 2 - 1)%Q).

Definition _denormalize (self : Env) (actions : list Q) : result (list Q) :=
  collect (range 6)
    (fun i => a <- index actions i ;;
              let shifted := ((a + 1) / 2)%Q in
              d <- index (diffs self) i ;;
              lim <- index JOINT_LIMITS i ;;
              ret (shifted * d + fst lim)%Q).

(** *** Reset *)

Definition randomize : M Env unit :=
  for_each (range 6)
    (fun i => rest <- lift (index REST_POS i) ;;
              lo <- lift (index RANDOM_NOISE i) ;;
              hi <- lift (index RANDOM_NOISE i) ;;
              r <- randint (fst lo) (snd hi) ;;
              let new_pos := (rest + r)%Z in
              ms <- gets (fun e => snd (motors e)) ;;
              m <- lift (index ms i) ;;
              call (set_position_target m (inject_Z new_pos))).

Definition _restPos : M Env unit :=
  modify (set_done false) ;;;
  call stop_simulation ;;;
  call (start_simulation true) ;;;
  ms <- gets (fun e => fst (motors e)) ;;
  for_each (enumerate ms)
    (fun im => p <- lift (index REST_POS (fst im)) ;;
               call (set_position_target (snd im) (inject_Z p))) ;;;
  randomize ;;;
  for_each (range 15) (fun _ => call step_blocking_simulation).

(** The loop of [_self_observe] that queries each motor of arm A. *)
Fixpoint read_joints (rd : Readings) (ms : list (nat * SimObject))
         (pos vel : list Q) : M Env (list Q * list Q) :=
  match ms with
  | [] => ret (pos, vel)
  | im :: ms' =>
      call (get_joint_angle (snd im)) ;;;
      call (get_joint_velocity (snd im)) ;;;
      read_joints rd ms' (pos ++ [joint_angle_of rd (snd im)])
                         (vel ++ [joint_velocity_of rd (snd im)])
  end.

(** Line 122 of the source also converts the vector to float32.  The
    conversion keeps the number of entries and is not modelled: here the
    stored vector holds the exact values. *)
Definition _self_observe (rd : Readings) : M Env unit :=
  ms <- gets (fun e => fst (motors e)) ;;
  pv <- read_joints rd (enumerate ms) [] [] ;;
  self <- gets (fun e => e) ;;
  pos <- lift (_normalize self (fst pv)) ;;
  let joint_vel := pos ++ snd pv in
  c <- gets cam ;;
  call (get_image c) ;;;
  modify (set_observation (camera_image rd, joint_vel)).

Definition _reset (rd : Readings) : M Env (Image * list Q) :=
  _restPos ;;;
  _self_observe rd ;;;
  modify (set_frames_after_hit (-1)) ;;;
  getattr observation.

(** *** Reward *)

Definition _getReward (rd : Readings) : M Env Z :=
  call is_colliding ;;;
  f <- gets frames_after_hit ;;
  if colliding rd && (f =? -1)%Z then
    modify (set_frames_after_hit 0) ;;;
    ret 1%Z
  else
    (f1 <- gets frames_after_hit ;;
     if (f1 >=? 0)%Z then modify (set_frames_after_hit (f1 + 1)) else ret tt) ;;;
    (f2 <- gets frames_after_hit ;;
     if (f2 >=? INVULNERABILITY_AFTER_HIT)%Z
     then modify (set_frames_after_hit (-1)) else ret tt) ;;;
    ret 0%Z.

(** *** Step *)

Definition _gotoPos (pos : list Q) : M Env unit :=
  ms <- gets (fun e => fst (motors e)) ;;
  for_each (enumerate ms)
    (fun im => p <- lift (index pos (fst im)) ;;
               call (set_position_target (snd im) p)).

Definition StepResult : Type := (Image * list Q) * Z * bool * unit.

Definition _step (actions : list Q) (rd : Readings) : M Env StepResult :=
  let actions := clip actions (-1) 1 in
  self <- gets (fun e => e) ;;
  actions <- lift (_denormalize self actions) ;;
  _gotoPos actions ;;;
  call step_blocking_simulation ;;;
  _self_observe rd ;;;
  obs <- getattr observation ;;
  reward <- _getReward rd ;;
  d <- getattr done ;;
  ret (obs, reward, d, tt).

Definition _close : M Env unit :=
  call stop_simulation ;;;
  call end_session.

Definition _render : M Env unit := ret tt.

End ErgoFightStaticEnv.

(** ** Actions that hold a NaN

    The action is a float array, and besides numbers a float array can
    hold NaN, which the rationals do not have.  The lines of [_step]
    that turn the action into position targets are embedded a second
    time here over numbers-or-NaN: an arithmetic operation, [np.maximum]
    and [np.minimum] give NaN as soon as an operand is NaN, and NaN
    compares with nothing.  On actions that hold numbers only the two
    embeddings agree. *)

Module WithNaN.

Inductive fnum : Type :=
| Num (q : Q)
| NaN.

Definition lift2 (f : Q -> Q -> Q) (a b : fnum) : fnum :=
  match a, b with
  | Num x, Num y => Num (f x y)
  | _, _ => NaN
  end.

Definition add : fnum -> fnum -> fnum := lift2 Qplus.
Definition mul : fnum -> fnum -> fnum := lift2 Qmult.
(** Only used with the divisor 2. *)
Definition div : fnum -> fnum -> fnum := lift2 Qdiv.
Definition maximum : fnum -> fnum -> fnum := lift2 Qmax.
Definition minimum : fnum -> fnum -> fnum := lift2 Qmin.

(** [np.clip(a, lo, hi)]: [minimum(maximum(a, lo), hi)], elementwise. *)
Definition clip (a : list fnum) (lo hi : Q) : list fnum :=
  map (fun x => minimum (maximum x (Num lo)) (Num hi)) a.

Definition _denormalize (JOINT_LIMITS : list (Q * Q)) {Image Rng : Type}
           (self : Env Image Rng) (actions : list fnum)
  : result (list fnum) :=
  collect (range 6)
    (fun i => a <- index actions i ;;
              let shifted := div (add a (Num 1)) (Num 2) in
              d <- index (diffs self) i ;;
              lim <- index JOINT_LIMITS i ;;
              ret (add (mul shifted (Num d)) (Num (fst lim)))).

(** The first three lines of [_step]: the clamp, the denormalisation,
    and the position targets [_gotoPos] sends, each with its motor, in
    the order they are sent. *)
Definition step_targets (JOINT_LIMITS : list (Q * Q)) {Image Rng : Type}
           (self : Env Image Rng) (actions : list fnum)
  : result (list (SimObject * fnum)) :=
  let actions := clip actions (-1) 1 in
  actions <- _denormalize JOINT_LIMITS self actions ;;
  collect (enumerate (fst (motors self)))
    (fun im => p <- index actions (fst im) ;; ret (snd im, p)).

(** A target lies within a joint's limits; NaN lies within none. *)
Definition within (lim : Q * Q) (v : fnum) : Prop :=
  match v with
  | Num q => (fst lim <= q <= snd lim)%Q
  | NaN => False
  end.

End WithNaN.

(** ** Specification vocabulary *)

(** The handles of the six motors of arm [robot_idx] (0 for arm A, 1
    for arm B), as [_startEnv] stores them. *)
Definition robot_motors (robot_idx : nat) : list SimObject :=
  map (fun motor_idx => Build_SimObject (motor_name robot_idx motor_idx) true)
      (range 6).

(** The diffs the constructor derives from the joint-limit table. *)
Definition init_diffs (JOINT_LIMITS : list (Q * Q)) : result (list Q) :=
  collect (range 6)
    (fun i => hi <- index JOINT_LIMITS i ;;
              lo <- index JOINT_LIMITS i ;;
              ret (snd hi - fst lo)%Q).

(** The part of an instance that the constructor fixes once and for all:
    the motor handles of the two arms, the camera handle and the range
    widths. *)
Definition constructed (JOINT_LIMITS : list (Q * Q)) {Image Rng : Type}
           (e : Env Image Rng) : Prop :=
  motors e = (robot_motors 0, robot_motors 1) /\
  cam e = Build_SimObject "cam" false /\
  init_diffs JOINT_LIMITS = Ok (diffs e).

(** Every joint of the table has a non-empty range ([min < max]). *)
Definition limits_proper (JOINT_LIMITS : list (Q * Q)) : Prop :=
  forall i lim, (i < 6)%nat -> nth_error JOINT_LIMITS i = Some lim ->
                (fst lim < snd lim)%Q.

(** Every joint of the table has [min <= max]. *)
Definition limits_ordered (JOINT_LIMITS : list (Q * Q)) : Prop :=
  forall i lim, (i < 6)%nat -> nth_error JOINT_LIMITS i = Some lim ->
                (fst lim <= snd lim)%Q.

(** The contract of [np.random.randint(low, high)]: an integer of the
    half-open interval [low, high). *)
Definition randint_contract {Rng : Type}
           (np_random_randint : Z -> Z -> Rng -> Z * Rng) : Prop :=
  forall low high g, (low < high)%Z ->
                     (low <= fst (np_random_randint low high g) < high)%Z.

(** The values the hit counter may take between operations. *)
Definition counter_ok (f : Z) : Prop :=
  (f = -1 \/ 0 <= f < INVULNERABILITY_AFTER_HIT)%Z.

(** The calls an operation added to the simulator log. *)
Definition issued {Image Rng : Type} (e e' : Env Image Rng)
           (new : list SimCall) : Prop :=
  venv e' = new ++ venv e.

(** The pose commanded to a list of motors, as the log has it. *)
Definition commanded_pose (ms : list SimObject) (log : list SimCall)
  : list (option Q) :=
  map (fun m => commanded m log) ms.

Section Vocabulary.

Context {Image Rng : Type}.

Local Abbreviation env := (Env Image Rng).

(** Only the simulator log and the stored observation may differ. *)
Definition quiet (e e' : env) : Prop :=
  headless e' = headless e /\ motors e' = motors e /\
  sword_collision e' = sword_collision e /\ cam e' = cam e /\
  diffs e' = diffs e /\ done e' = done e /\
  np_random e' = np_random e /\
  frames_after_hit e' = frames_after_hit e.

(** Only the log, the stored observation and the hit counter may
    differ. *)
Definition steady (e e' : env) : Prop :=
  headless e' = headless e /\ motors e' = motors e /\
  sword_collision e' = sword_collision e /\ cam e' = cam e /\
  diffs e' = diffs e /\ done e' = done e /\
  np_random e' = np_random e.

(** The joint angles and velocities of arm A, as the simulator reports
    them. *)
Definition angles_read (rd : Readings Image) (e : env) : list Q :=
  map (joint_angle_of rd) (fst (motors e)).

Definition velocities_read (rd : Readings Image) (e : env) : list Q :=
  map (joint_velocity_of rd) (fst (motors e)).

(** The log grew by calls that all satisfy [P]. *)
Definition log_ext (P : SimCall -> Prop) (e e' : env) : Prop :=
  exists new, issued e e' new /\ Forall P new.

(** The call is a position target for motor [i] of [ms], with value
    [pos[i]]. *)
Definition targets_from (ms : list SimObject) (pos : list Q) (c : SimCall)
  : Prop :=
  exists i m v, c = set_position_target m v /\
                nth_error ms i = Some m /\ nth_error pos i = Some v.

(** The integers [randomize] draws, one per range in turn, and the
    generator state after the last draw. *)
Fixpoint draws (np_random_randint : Z -> Z -> Rng -> Z * Rng)
         (ranges : list (Z * Z)) (g : Rng) : list Z * Rng :=
  match ranges with
  | [] => ([], g)
  | lh :: ranges' =>
      let p := np_random_randint (fst lh) (snd lh) g in
      let q := draws np_random_randint ranges' (snd p) in
      (fst p :: fst q, snd q)
  end.

(** Position targets for the motors [ms], one value each, most recent
    first. *)
Definition target_calls (ms : list SimObject) (pos : list Q) : list SimCall :=
  rev (map (fun mp => set_position_target (fst mp) (snd mp)) (combine ms pos)).

(** The calls of [_restPos] on a constructed instance when the draws
    are [noise], most recent first. *)
Definition restPos_calls (noise : list Z) : list SimCall :=
  repeat step_blocking_simulation 15
    ++ target_calls (robot_motors 1)
         (map (fun rn => inject_Z (fst rn + snd rn)) (combine REST_POS noise))
    ++ target_calls (robot_motors 0) (map inject_Z REST_POS)
    ++ [start_simulation true; stop_simulation].

(** The call is not a position target. *)
Definition not_target (c : SimCall) : Prop :=
  forall m v, c <> set_position_target m v.

(** The reward rule of [_getReward] as a function of the collision
    flag and the counter: the reward, and the counter afterwards. *)
Definition reward_of (hit : bool) (f : Z) : Z :=
  if hit && (f =? -1)%Z then 1%Z else 0%Z.

Definition next_counter (hit : bool) (f : Z) : Z :=
  if hit && (f =? -1)%Z then 0%Z
  else
    let f1 := if (f >=? 0)%Z then (f + 1)%Z else f in
    if (f1 >=? INVULNERABILITY_AFTER_HIT)%Z then (-1)%Z else f1.

(** The queries [_self_observe] makes for the motors [ms], most recent
    first: angle then velocity, motor by motor. *)
Definition joint_queries (ms : list SimObject) : list SimCall :=
  rev (flat_map (fun m => [get_joint_angle m; get_joint_velocity m]) ms).

(** The calls of [_self_observe] when it completes, most recent first. *)
Definition observe_calls (e : env) : list SimCall :=
  get_image (cam e) :: joint_queries (fst (motors e)).

(** The calls of a [_step] that reaches the reward rule, when the
    denormalised action is [t], most recent first. *)
Definition step_calls (e : env) (t : list Q) : list SimCall :=
  is_colliding
    :: observe_calls e
    ++ step_blocking_simulation :: target_calls (fst (motors e)) t.

(** The number of simulation steps among some calls. *)
Definition sim_steps (calls : list SimCall) : nat :=
  List.length
    (filter (fun c => match c with
                      | step_blocking_simulation => true
                      | _ => false
                      end) calls).

(** The reward rule run over a sequence of collision flags from counter
    [f]: the rewards, in order. *)
Fixpoint rule_rewards (hits : list bool) (f : Z) : list Z :=
  match hits with
  | [] => []
  | hit :: hits' =>
      reward_of hit f :: rule_rewards hits' (next_counter hit f)
  end.

(** The sum of the rewards of the step calls that returned. *)
Fixpoint total_reward (rs : list (option Z)) : Z :=
  match rs with
  | [] => 0%Z
  | Some r :: rs' => (r + total_reward rs')%Z
  | None :: rs' => total_reward rs'
  end.

(** The number of step calls for which the counter still suppresses the
    reward. *)
Definition cooling_left (f : Z) : Z :=
  if (f =? -1)%Z then 0%Z else (INVULNERABILITY_AFTER_HIT - f)%Z.

End Vocabulary.

Section Lifecycle.

Variable JOINT_LIMITS : list (Q * Q).
Variable Image : Type.
Variable Rng : Type.
Variable np_random_seed : option Z -> Rng.
Variable np_random_randint : Z -> Z -> Rng -> Z * Rng.

(** The instances a caller can hold: a constructed one, and whatever an
    operation leaves behind, whether it returned or raised. *)
Inductive reachable : Env Image Rng -> Prop :=
| reach_init (hl : bool) (g : Rng) (e : Env Image Rng) :
    __init__ JOINT_LIMITS Image hl g = Ok e -> reachable e
| reach_seed (seed : option Z) (entropy : Rng) (e : Env Image Rng) :
    reachable e -> reachable (fst (_seed np_random_seed seed entropy e))
| reach_reset (rd : Readings Image) (e : Env Image Rng) :
    reachable e ->
    reachable (fst (_reset JOINT_LIMITS np_random_randint rd e))
| reach_step (actions : list Q) (rd : Readings Image) (e : Env Image Rng) :
    reachable e -> reachable (fst (_step JOINT_LIMITS actions rd e))
| reach_render (e : Env Image Rng) :
    reachable e -> reachable (fst (_render e))
| reach_close (e : Env Image Rng) :
    reachable e -> reachable (fst (_close e)).

(** An episode: step calls made one after the other, each with its
    action and the simulator's answers; the caller keeps going whatever
    a call does.  The outcomes are listed in call order. *)
Fixpoint run_steps (inputs : list (list Q * Readings Image))
         (e : Env Image Rng)
  : Env Image Rng * list (result (StepResult Image)) :=
  match inputs with
  | [] => (e, [])
  | ar :: inputs' =>
      let s := _step JOINT_LIMITS (fst ar) (snd ar) e in
      let rest := run_steps inputs' (fst s) in
      (fst rest, snd s :: snd rest)
  end.

(** The rewards of an episode, in call order; a call that raised has
    none. *)
Definition rewards (rs : list (result (StepResult Image)))
  : list (option Z) :=
  map (fun r => match r with
                | Ok (_, reward, _, _) => Some reward
                | Raise _ => None
                end) rs.

(** The hit counter after each call of an episode, in call order. *)
Fixpoint counters (inputs : list (list Q * Readings Image))
         (e : Env Image Rng) : list Z :=
  match inputs with
  | [] => []
  | ar :: inputs' =>
      let e' := fst (_step JOINT_LIMITS (fst ar) (snd ar) e) in
      frames_after_hit e' :: counters inputs' e'
  end.

End Lifecycle.

(** Post-condition of a computation started in [e]: a predicate on its
    outcome (value or exception) and final state. *)
Definition wp {S A : Type} (c : M S A) (post : result A -> S -> Prop) (e : S)
  : Prop :=
  post (snd (c e)) (fst (c e)).

(** ** A sample instance

    A concrete joint-limit table, generator and simulator answers, used
    to run the definitions. *)

Module Sample.

Definition JOINT_LIMITS : list (Q * Q) :=
  [(-150 # 1, 150 # 1); (-90 # 1, 125 # 1); (-90 # 1, 90 # 1);
   (-90 # 1, 90 # 1); (-90 # 1, 90 # 1); (-90 # 1, 90 # 1)]%Q.

(** A linear congruential generator standing for NumPy's. *)
Definition seed (s : option Z) : Z :=
  match s with Some z => z | None => 0%Z end.

Definition randint (low high : Z) (g : Z) : Z * Z :=
  ((low + g mod (high - low))%Z, ((g * 75 + 74) mod 65537)%Z).

Definition readings (angle : Q) (hit : bool) : Readings unit :=
  {| joint_angle_of := fun _ => angle;
     joint_velocity_of := fun _ => 0%Q;
     camera_image := tt;
     colliding := hit |}.

(** The instance as the constructor leaves it. *)
Definition fresh : Env unit Z :=
  match __init__ JOINT_LIMITS unit true 7%Z with
  | Ok e => e
  | Raise _ =>
      mkEnv true [] ([], []) EmptyString (Build_SimObject EmptyString false)
            [] 0 None None 0%Z
  end.

(** The instance after one reset. *)
Definition ready : Env unit Z :=
  fst (_reset JOINT_LIMITS randint (readings (30 # 1) false) fresh).

(** The instance after a reset and one scoring step. *)
Definition just_hit : Env unit Z :=
  fst (_step JOINT_LIMITS [0; 0; 0; 0; 0; 0]%Q (readings (30 # 1) true) ready).

Definition an_action : list Q := [1 # 2; 3 # 1; -4 # 1; 0; -1 # 3; 1]%Q.


(** The episode of the specification's example: a hit, a second
    colliding step, three free steps, a hit again. *)
Definition trace_inputs : list (list Q * Readings unit) :=
  map (fun hit => ([0; 0; 0; 0; 0; 0]%Q, readings (30 # 1) hit))
      [true; true; false; false; false; true].

(** Five steps with the swords touching all along. *)
Definition hold_inputs : list (list Q * Readings unit) :=
  repeat ([0; 0; 0; 0; 0; 0]%Q, readings (30 # 1) true) 5.

(** A pose within the limits of the sample table. *)
Definition a_pose : list Q := [30 # 1; -90 # 1; 125 # 2; 0; 90 # 1; -1 # 3]%Q.


(** An action with too few components. *)
Definition short_action : list Q := [0; 1 # 2]%Q.

(** Eight steps with the swords touching all along. *)
Definition eight_holds : list (list Q * Readings unit) :=
  repeat ([0; 0; 0; 0; 0; 0]%Q, readings (30 # 1) true) 8.

(** Five steps with the swords touching, with other actions and other
    joint readings than [hold_inputs]. *)
Definition other_holds : list (list Q * Readings unit) :=
  repeat (an_action, readings (45 # 1) true) 5.

(** A joint-limit table with a row missing. *)
Definition five_limits : list (Q * Q) := firstn 5 JOINT_LIMITS.

(** An action whose first component is NaN. *)
Definition nan_action : list WithNaN.fnum :=
  WithNaN.NaN :: map WithNaN.Num [0; 0; 0; 0; 0]%Q.

End Sample.

(** ** Reasoning rules for the monad *)

Section Rules.

Context {S : Type}.

Lemma wp_ret {A : Type} (a : A) (post : result A -> S -> Prop) (e : S) :
  post (Ok a) e -> wp (ret a) post e.
Proof. exact (fun H => H). Qed.

Lemma wp_bind {A B : Type} (c : M S A) (k : A -> M S B)
      (post : result B -> S -> Prop) (e : S) :
  wp c (fun r e' => match r with
                    | Ok a => wp (k a) post e'
                    | Raise x => post (Raise x) e'
                    end) e ->
  wp (bind c k) post e.
Proof.
  unfold wp; cbn [bind M_Monad].
  destruct (c e) as [e' [a | x]]; cbn [fst snd]; trivial.
Qed.

Lemma wp_lift {A : Type} (r : result A) (post : result A -> S -> Prop) (e : S) :
  post r e -> wp (lift r) post e.
Proof. exact (fun H => H). Qed.

Lemma wp_gets {A : Type} (f : S -> A) (post : result A -> S -> Prop) (e : S) :
  post (Ok (f e)) e -> wp (gets f) post e.
Proof. exact (fun H => H). Qed.

Lemma wp_modify (f : S -> S) (post : result unit -> S -> Prop) (e : S) :
  post (Ok tt) (f e) -> wp (modify f) post e.
Proof. exact (fun H => H). Qed.

Lemma wp_mono {A : Type} (c : M S A) (post post' : result A -> S -> Prop) (e : S) :
  wp c post e -> (forall r e', post r e' -> post' r e') -> wp c post' e.
Proof. unfold wp; auto. Qed.

(** A loop keeps an invariant when each iteration does, and an
    iteration that raises ends the loop with that exception. *)
Lemma wp_for_each {A : Type} (inv : S -> Prop) (l : list A)
      (body : A -> M S unit) (post : result unit -> S -> Prop) :
  (forall x e1, In x l -> inv e1 ->
     wp (body x) (fun r e2 => match r with
                              | Ok _ => inv e2
                              | Raise y => post (Raise y) e2
                              end) e1) ->
  (forall e', inv e' -> post (Ok tt) e') ->
  forall e, inv e -> wp (for_each l body) post e.
Proof.
  intros Hbody Hpost.
  induction l as [| x l IH]; intros e He; cbn [for_each].
  - apply wp_ret; auto.
  - apply wp_bind.
    eapply wp_mono; [apply (Hbody x e (or_introl eq_refl) He) |].
    intros [[] | y] e' H; cbn beta iota in *; trivial.
    apply IH; trivial.
    intros x' e1 Hin; apply Hbody; right; exact Hin.
Qed.

(** What a computation that returned has done. *)
Lemma bind_Ok_inv {A B : Type} (c : M S A) (k : A -> M S B) (e e2 : S) (b : B) :
  bind c k e = (e2, Ok b) ->
  exists a e1, c e = (e1, Ok a) /\ k a e1 = (e2, Ok b).
Proof.
  cbn [bind M_Monad]; destruct (c e) as [e1 [a | x]]; intros H.
  - exists a, e1; auto.
  - discriminate H.
Qed.

Lemma wp_run {A : Type} (c : M S A) (post : result A -> S -> Prop) (e e' : S)
      (r : result A) :
  wp c post e -> c e = (e', r) -> post r e'.
Proof. unfold wp; intros H E; rewrite E in H; exact H. Qed.

End Rules.

(** ** Lists built by [collect] *)

Lemma collect_nth {A B : Type} (f : A -> result B) (l : list A) (ys : list B) :
  collect l f = Ok ys ->
  List.length ys = List.length l /\
  forall i x, nth_error l i = Some x ->
              exists y, f x = Ok y /\ nth_error ys i = Some y.
Proof.
  revert ys; induction l as [| a l IH]; intros ys H; cbn in H.
  - injection H as <-; split; [reflexivity |].
    intros [| i] x Hx; discriminate Hx.
  - destruct (f a) as [y | ?] eqn:Ea; [| discriminate H].
    destruct (collect l f) as [ys' | ?]; [| discriminate H].
    injection H as <-.
    destruct (IH ys' eq_refl) as [Hlen Hnth].
    split; [cbn; congruence |].
    intros [| i] x Hx; cbn in Hx |- *.
    + injection Hx as <-; eauto.
    + apply Hnth; exact Hx.
Qed.

Lemma collect_total {A B : Type} (f : A -> result B) (l : list A) :
  (forall x, In x l -> exists y, f x = Ok y) ->
  exists ys, collect l f = Ok ys.
Proof.
  induction l as [| a l IH]; intros H; cbn.
  - eauto.
  - destruct (H a (or_introl eq_refl)) as [y ->].
    destruct IH as [ys ->]; [intros x Hx; apply H; right; exact Hx |].
    eauto.
Qed.

Lemma range_nth (n i : nat) : (i < n)%nat -> nth_error (range n) i = Some i.
Proof.
  intros H; unfold range.
  rewrite nth_error_nth' with (d := 0%nat) by (rewrite length_seq; exact H).
  rewrite seq_nth by exact H; reflexivity.
Qed.

Lemma index_Ok {A : Type} (l : list A) (i : nat) (x : A) :
  index l i = Ok x <-> nth_error l i = Some x.
Proof.
  unfold index; destruct (nth_error l i); split; intros H;
    try discriminate H; congruence.
Qed.

Lemma index_lt {A : Type} (l : list A) (i : nat) :
  (i < List.length l)%nat -> exists x, index l i = Ok x.
Proof.
  intros H; unfold index.
  destruct (nth_error l i) eqn:E; eauto.
  apply nth_error_None in E; lia.
Qed.

(** ** The affine maps on one joint *)

Lemma affine_roundtrip (lo hi x : Q) :
  (lo < hi)%Q ->
  ((((x - lo) / (hi - lo) * 2 - 1 + 1) / 2) * (hi - lo) + lo == x)%Q.
Proof. intros H; field; lra. Qed.

Lemma normalized_in_unit_box (lo hi x : Q) :
  (lo < hi)%Q -> (lo <= x <= hi)%Q ->
  (-1 <= (x - lo) / (hi - lo) * 2 - 1 <= 1)%Q.
Proof.
  intros H [Hlo Hhi].
  assert (L : (0 <= (x - lo) / (hi - lo))%Q) by (apply Qle_shift_div_l; lra).
  assert (U : ((x - lo) / (hi - lo) <= 1)%Q) by (apply Qle_shift_div_r; lra).
  lra.
Qed.

Lemma denormalized_in_limits (lo hi a : Q) :
  (lo <= hi)%Q -> (-1 <= a <= 1)%Q ->
  (lo <= (a + 1) / 2 * (hi - lo) + lo <= hi)%Q.
Proof.
  intros H [Hlo Hhi].
  assert (S0 : (0 <= (a + 1) / 2)%Q) by (apply Qle_shift_div_l; lra).
  assert (S1 : ((a + 1) / 2 <= 1)%Q) by (apply Qle_shift_div_r; lra).
  assert (S2 : (0 <= 1 - (a + 1) / 2)%Q) by lra.
  assert (D : (0 <= hi - lo)%Q) by lra.
  pose proof (Qmult_le_0_compat _ _ S0 D) as P0.
  pose proof (Qmult_le_0_compat _ _ S2 D) as P1.
  set (s := ((a + 1) / 2)%Q) in *.
  lra.
Qed.

Lemma clip_in_unit_box (a : list Q) (x : Q) :
  In x (clip a (-1) 1) -> (-1 <= x <= 1)%Q.
Proof.
  unfold clip; rewrite in_map_iff; intros [y [<- _]]; split.
  - apply Q.min_glb; [apply Q.le_max_r | lra].
  - apply Q.le_min_r.
Qed.

Lemma clip_length (a : list Q) (lo hi : Q) :
  List.length (clip a lo hi) = List.length a.
Proof. apply length_map. Qed.

Lemma truediv_Ok (a d : Q) : ~ (d == 0)%Q -> truediv a d = Ok (a / d)%Q.
Proof.
  intros H; unfold truediv.
  destruct (Qeq_bool d 0) eqn:E; [| reflexivity].
  apply Qeq_bool_iff in E; contradiction.
Qed.

Lemma truediv_inv (a d q : Q) :
  truediv a d = Ok q -> ~ (d == 0)%Q /\ q = (a / d)%Q.
Proof.
  unfold truediv; destruct (Qeq_bool d 0) eqn:E; intros H; [discriminate H |].
  injection H as <-; split; [| reflexivity].
  intros D; apply Qeq_bool_iff in D; congruence.
Qed.

(** ** Properties of the environment *)

Section Properties.

Variable JOINT_LIMITS : list (Q * Q).
Variable Image : Type.
Variable Rng : Type.
Variable np_random_seed : option Z -> Rng.
Variable np_random_randint : Z -> Z -> Rng -> Z * Rng.

Local Abbreviation env := (Env Image Rng).

(** *** The range widths *)

Lemma init_diffs_nth (ds : list Q) :
  init_diffs JOINT_LIMITS = Ok ds ->
  forall i, (i < 6)%nat ->
    exists lim, nth_error JOINT_LIMITS i = Some lim /\
                nth_error ds i = Some (snd lim - fst lim)%Q.
Proof.
  intros H i Hi.
  destruct (collect_nth _ _ H) as [_ Hnth].
  destruct (Hnth i i (range_nth Hi)) as [y [Hy Hds]].
  unfold index in Hy; cbn [bind result_Monad] in Hy.
  destruct (nth_error JOINT_LIMITS i) as [lim |]; [| discriminate Hy].
  cbn in Hy; injection Hy as <-; eauto.
Qed.

Lemma init_diffs_length (ds : list Q) :
  init_diffs JOINT_LIMITS = Ok ds -> List.length ds = 6%nat.
Proof. intros H; destruct (collect_nth _ _ H) as [L _]; exact L. Qed.

(** [_startEnv] returns, having resolved the twelve motor handles. *)
Lemma startEnv_run (hl : bool) :
  exists log,
    _startEnv hl ([], ([], [])) =
    ((log, (robot_motors 0, robot_motors 1)), Ok tt).
Proof.
  exists (fst (fst (_startEnv hl ([], ([], []))))).
  vm_compute; reflexivity.
Qed.

Lemma init_Ok_inv (hl : bool) (g : Rng) (e : env) :
  __init__ JOINT_LIMITS Image hl g = Ok e ->
  constructed JOINT_LIMITS e /\
  frames_after_hit e = (-1)%Z /\ done e = None /\ observation e = None.
Proof.
  unfold __init__; destruct (startEnv_run hl) as [log ->].
  fold (init_diffs JOINT_LIMITS).
  destruct (init_diffs JOINT_LIMITS) as [ds |] eqn:E; cbn [bind result_Monad];
    intros H; [| discriminate H].
  injection H as <-; unfold constructed; cbn; auto.
Qed.

(** *** [_normalize] and [_denormalize], joint by joint *)

Lemma normalize_nth (self : env) (pos out : list Q) :
  _normalize JOINT_LIMITS self pos = Ok out ->
  List.length out = 6%nat /\
  forall i, (i < 6)%nat ->
    exists x lim d,
      nth_error pos i = Some x /\ nth_error JOINT_LIMITS i = Some lim /\
      nth_error (diffs self) i = Some d /\ ~ (d == 0)%Q /\
      nth_error out i = Some ((x - fst lim) / d * 2 - 1)%Q.
Proof.
  intros H; destruct (collect_nth _ _ H) as [L Hnth]; split; [exact L |].
  intros i Hi.
  destruct (Hnth i i (range_nth Hi)) as [y [Hy Hout]].
  unfold index in Hy; cbn [bind result_Monad] in Hy.
  destruct (nth_error pos i) as [x |]; [| discriminate Hy].
  destruct (nth_error JOINT_LIMITS i) as [lim |]; [| discriminate Hy].
  destruct (nth_error (diffs self) i) as [d |]; [| discriminate Hy].
  destruct (truediv (x - fst lim) d) as [q |] eqn:Eq; [| discriminate Hy].
  apply truediv_inv in Eq; destruct Eq as [Hd ->].
  cbn in Hy; injection Hy as <-.
  exists x, lim, d; auto.
Qed.

Lemma denormalize_nth (self : env) (actions out : list Q) :
  _denormalize JOINT_LIMITS self actions = Ok out ->
  List.length out = 6%nat /\
  forall i, (i < 6)%nat ->
    exists a lim d,
      nth_error actions i = Some a /\ nth_error JOINT_LIMITS i = Some lim /\
      nth_error (diffs self) i = Some d /\
      nth_error out i = Some ((a + 1) / 2 * d + fst lim)%Q.
Proof.
  intros H; destruct (collect_nth _ _ H) as [L Hnth]; split; [exact L |].
  intros i Hi.
  destruct (Hnth i i (range_nth Hi)) as [y [Hy Hout]].
  unfold index in Hy; cbn [bind result_Monad] in Hy.
  destruct (nth_error actions i) as [a |]; [| discriminate Hy].
  destruct (nth_error (diffs self) i) as [d |]; [| discriminate Hy].
  destruct (nth_error JOINT_LIMITS i) as [lim |]; [| discriminate Hy].
  cbn in Hy; injection Hy as <-.
  exists a, lim, d; auto.
Qed.

Lemma range_In (n i : nat) : In i (range n) -> (i < n)%nat.
Proof. unfold range; rewrite in_seq; lia. Qed.

Lemma normalize_total (self : env) (pos : list Q) :
  init_diffs JOINT_LIMITS = Ok (diffs self) ->
  limits_proper JOINT_LIMITS ->
  (6 <= List.length pos)%nat ->
  exists out, _normalize JOINT_LIMITS self pos = Ok out.
Proof.
  intros Hd Hp Hlen; apply collect_total; intros i Hi.
  apply range_In in Hi.
  destruct (index_lt pos (i := i)) as [x ->]; [lia |].
  destruct (init_diffs_nth Hd Hi) as [lim [Hlim Hdi]].
  unfold index; rewrite Hlim, Hdi; cbn [bind result_Monad].
  rewrite truediv_Ok; [cbn; eauto |].
  specialize (Hp i lim Hi Hlim); lra.
Qed.

Lemma denormalize_total (self : env) (actions : list Q) :
  init_diffs JOINT_LIMITS = Ok (diffs self) ->
  (6 <= List.length actions)%nat ->
  exists out, _denormalize JOINT_LIMITS self actions = Ok out.
Proof.
  intros Hd Hlen; apply collect_total; intros i Hi.
  apply range_In in Hi.
  destruct (index_lt actions (i := i)) as [a ->]; [lia |].
  destruct (init_diffs_nth Hd Hi) as [lim [Hlim Hdi]].
  unfold index; rewrite Hlim, Hdi; cbn; eauto.
Qed.

(** *** Frames: what an operation leaves alone *)



Lemma quiet_refl (e : env) : quiet e e.
Proof. unfold quiet; tauto. Qed.

Lemma quiet_trans (e1 e2 e3 : env) : quiet e1 e2 -> quiet e2 e3 -> quiet e1 e3.
Proof. unfold quiet; intuition congruence. Qed.

Lemma quiet_call (c : SimCall) (e e' : env) :
  quiet e e' -> quiet e (set_venv (c :: venv e') e').
Proof. unfold quiet; cbn; tauto. Qed.

Lemma quiet_set_observation (o : Image * list Q) (e e' : env) :
  quiet e e' -> quiet e (set_observation o e').
Proof. unfold quiet; cbn; tauto. Qed.

Lemma log_ext_refl (P : SimCall -> Prop) (e : env) : log_ext P e e.
Proof. exists []; split; [reflexivity | constructor]. Qed.

Lemma log_ext_trans (P : SimCall -> Prop) (e1 e2 e3 : env) :
  log_ext P e1 e2 -> log_ext P e2 e3 -> log_ext P e1 e3.
Proof.
  intros [n1 [H1 F1]] [n2 [H2 F2]]; exists (n2 ++ n1); split.
  - unfold issued in *; rewrite H2, H1; apply app_assoc.
  - apply Forall_app; auto.
Qed.

Lemma log_ext_call (P : SimCall -> Prop) (c : SimCall) (e e' : env) :
  P c -> log_ext P e e' -> log_ext P e (set_venv (c :: venv e') e').
Proof.
  intros Hc [n [H F]]; exists (c :: n); split.
  - unfold issued in *; cbn; rewrite H; reflexivity.
  - constructor; assumption.
Qed.

Lemma log_ext_set_observation (P : SimCall -> Prop) (o : Image * list Q)
      (e e' : env) :
  log_ext P e e' -> log_ext P e (set_observation o e').
Proof. intros [n [H F]]; exists n; split; assumption. Qed.

Lemma log_ext_weaken (P P' : SimCall -> Prop) (e e' : env) :
  (forall c, P c -> P' c) -> log_ext P e e' -> log_ext P' e e'.
Proof.
  intros HP [n [H F]]; exists n; split; [exact H |].
  eapply Forall_impl; eauto.
Qed.

Lemma wp_call (c : SimCall) (post : result unit -> env -> Prop) (e : env) :
  post (Ok tt) (set_venv (c :: venv e) e) -> wp (call c) post e.
Proof. exact (fun H => H). Qed.

Lemma wp_getattr {A : Type} (f : env -> option A)
      (post : result A -> env -> Prop) (e : env) :
  match f e with
  | Some a => post (Ok a) e
  | None => post (Raise AttributeError) e
  end ->
  wp (getattr f) post e.
Proof. unfold wp, getattr; destruct (f e); trivial. Qed.

Lemma wp_randint (low high : Z) (post : result Z -> env -> Prop) (e : env) :
  post (Ok (fst (np_random_randint low high (np_random e))))
       (set_np_random (snd (np_random_randint low high (np_random e))) e) ->
  wp (randint np_random_randint low high) post e.
Proof. exact (fun H => H). Qed.

Lemma enumerate_In {A : Type} (l : list A) (i : nat) (x : A) :
  In (i, x) (enumerate l) -> nth_error l i = Some x.
Proof.
  unfold enumerate.
  assert (G : forall s, In (i, x) (combine (seq s (List.length l)) l) ->
                        (s <= i)%nat /\ nth_error l (i - s) = Some x).
  { induction l as [| a l IH]; intros s H; cbn in H; [contradiction |].
    destruct H as [H | H].
    - injection H as <- <-; rewrite Nat.sub_diag; split; [lia | reflexivity].
    - destruct (IH (Datatypes.S s) H) as [Hle Hn]; split; [lia |].
      replace (i - s)%nat with (Datatypes.S (i - Datatypes.S s)) by lia.
      exact Hn. }
  intros H; destruct (G 0%nat H) as [_ Hn].
  rewrite Nat.sub_0_r in Hn; exact Hn.
Qed.

(** *** [_gotoPos] *)


Lemma gotoPos_spec (pos : list Q) (e : env) :
  wp (_gotoPos pos)
     (fun r e' =>
        quiet e e' /\ observation e' = observation e /\
        log_ext (targets_from (fst (motors e)) pos) e e' /\
        ((List.length (fst (motors e)) <= List.length pos)%nat -> r = Ok tt))
     e.
Proof.
  unfold _gotoPos.
  apply wp_bind, wp_gets; cbv beta iota.
  apply wp_for_each with
    (inv := fun e' => quiet e e' /\ observation e' = observation e /\
                      log_ext (targets_from (fst (motors e)) pos) e e').
  - intros [i m] e1 Hin (Hq & Ho & Hl).
    apply enumerate_In in Hin.
    apply wp_bind, wp_lift; cbn [fst snd].
    destruct (index pos i) as [p |] eqn:Ep.
    + apply wp_call; refine (conj _ (conj _ _)).
      * apply quiet_call, Hq.
      * exact Ho.
      * apply log_ext_call; [| exact Hl].
        exists i, m, p; apply index_Ok in Ep; auto.
    + refine (conj Hq (conj Ho (conj Hl _))).
      intros Hlen; exfalso.
      unfold index in Ep.
      destruct (nth_error pos i) eqn:En; [discriminate Ep |].
      apply nth_error_None in En.
      assert (i < List.length (fst (motors e)))%nat
        by (apply nth_error_Some; congruence).
      lia.
  - intros e' (Hq & Ho & Hl); auto.
  - refine (conj (quiet_refl e) (conj eq_refl (log_ext_refl _ e))).
Qed.

(** *** [_self_observe] *)

Lemma enumerate_snd {A : Type} (l : list A) : map snd (enumerate l) = l.
Proof.
unfold enumerate; generalize 0%nat.
induction l as [| a l IH]; intros s; cbn; [reflexivity |].
f_equal; apply IH.
Qed.

Lemma read_joints_spec (rd : Readings Image) (ms : list (nat * SimObject)) :
  forall (pos vel : list Q) (e : env),
    wp (read_joints rd ms pos vel)
       (fun r e' =>
          quiet e e' /\ observation e' = observation e /\
          log_ext not_target e e' /\
          r = Ok (pos ++ map (joint_angle_of rd) (map snd ms),
                  vel ++ map (joint_velocity_of rd) (map snd ms)))
       e.
Proof.
induction ms as [| im ms IH]; intros pos vel e; cbn [read_joints map].
- apply wp_ret; rewrite !app_nil_r.
  refine (conj (quiet_refl e) (conj eq_refl (conj (log_ext_refl _ e) eq_refl))).
- apply wp_bind, wp_call; apply wp_bind, wp_call.
  eapply wp_mono; [apply IH |].
  intros r e' (Hq & Ho & Hl & Hr); cbv beta in *.
  refine (conj _ (conj Ho (conj _ _))).
  + eapply quiet_trans; [| exact Hq].
    apply quiet_call, quiet_call, quiet_refl.
  + eapply log_ext_trans; [| exact Hl].
    apply log_ext_call; [intros m v; discriminate |].
    apply log_ext_call; [intros m v; discriminate |].
    apply log_ext_refl.
  + rewrite Hr, <- !app_assoc; reflexivity.
Qed.

Lemma normalize_diffs (s1 s2 : env) (pos : list Q) :
  diffs s1 = diffs s2 ->
  _normalize JOINT_LIMITS s1 pos = _normalize JOINT_LIMITS s2 pos.
Proof. intros H; unfold _normalize; rewrite H; reflexivity. Qed.

Lemma denormalize_diffs (s1 s2 : env) (a : list Q) :
  diffs s1 = diffs s2 ->
  _denormalize JOINT_LIMITS s1 a = _denormalize JOINT_LIMITS s2 a.
Proof. intros H; unfold _denormalize; rewrite H; reflexivity. Qed.

(** [_self_observe] only queries the simulator; it returns exactly when
    the joint angles it read can be normalised, and then stores the
    image with the normalised angles followed by the velocities. *)
Lemma self_observe_spec (rd : Readings Image) (e : env) :
  wp (_self_observe JOINT_LIMITS rd)
     (fun r e' =>
        quiet e e' /\ log_ext not_target e e' /\
        match _normalize JOINT_LIMITS e
                (map (joint_angle_of rd) (fst (motors e))) with
        | Ok n =>
            r = Ok tt /\
            observation e' =
              Some (camera_image rd,
                    n ++ map (joint_velocity_of rd) (fst (motors e)))
        | Raise x => r = Raise x
        end)
     e.
Proof.
unfold _self_observe.
apply wp_bind, wp_gets; cbv beta iota.
apply wp_bind.
eapply wp_mono; [apply read_joints_spec |].
intros r e1 (Hq & _ & Hl & ->); cbv beta iota.
rewrite enumerate_snd; cbn [app fst snd].
apply wp_bind, wp_gets; cbv beta iota.
apply wp_bind, wp_lift.
assert (Hd : diffs e1 = diffs e) by apply Hq.
rewrite (normalize_diffs e1 e _ Hd).
destruct (_normalize JOINT_LIMITS e
            (map (joint_angle_of rd) (fst (motors e)))) as [n | x].
- apply wp_bind, wp_gets; cbv beta iota.
  apply wp_bind, wp_call; apply wp_modify.
  refine (conj _ (conj _ (conj eq_refl eq_refl))).
  + apply quiet_set_observation, quiet_call, Hq.
  + apply log_ext_set_observation, log_ext_call; [| exact Hl].
    intros m v; discriminate.
- auto.
Qed.

(** *** [_getReward] *)

Lemma getReward_run (rd : Readings Image) (e : env) :
  _getReward rd e =
  (set_frames_after_hit (next_counter (colliding rd) (frames_after_hit e))
                        (set_venv (is_colliding :: venv e) e),
   Ok (reward_of (colliding rd) (frames_after_hit e))).
Proof.
destruct e as [hl v ms sw cm ds f d o g].
unfold _getReward, next_counter, reward_of, INVULNERABILITY_AFTER_HIT.
cbn -[Z.eqb Z.geb Z.add].
destruct (colliding rd && (f =? -1)%Z); cbn -[Z.eqb Z.geb Z.add];
  [reflexivity |].
destruct (f >=? 0)%Z; cbn -[Z.eqb Z.geb Z.add];
  [destruct (f + 1 >=? 3)%Z | destruct (f >=? 3)%Z]; reflexivity.
Qed.

Lemma next_counter_ok (hit : bool) (f : Z) :
  counter_ok f -> counter_ok (next_counter hit f).
Proof.
unfold counter_ok, next_counter, INVULNERABILITY_AFTER_HIT.
intros H.
destruct (hit && (f =? -1)%Z); [lia |].
destruct (Z.geb_spec f 0).
- destruct (Z.geb_spec (f + 1) 3); lia.
- destruct (Z.geb_spec f 3); lia.
Qed.

Lemma reward_of_cases (hit : bool) (f : Z) :
  (reward_of hit f = 1%Z /\ hit = true /\ f = (-1)%Z /\
   next_counter hit f = 0%Z) \/
  (reward_of hit f = 0%Z /\ ~ (hit = true /\ f = (-1)%Z)).
Proof.
unfold reward_of, next_counter.
destruct hit; cbn [andb].
- destruct (Z.eqb_spec f (-1)) as [-> | N].
  + left; repeat split; reflexivity.
  + right; split; [reflexivity | intros [_ H]; exact (N H)].
- right; split; [reflexivity | intros [H _]; discriminate H].
Qed.

(** *** [_step] *)

Lemma quiet_steady (e e' : env) : quiet e e' -> steady e e'.
Proof. unfold quiet, steady; tauto. Qed.

Lemma steady_trans (e1 e2 e3 : env) :
  steady e1 e2 -> steady e2 e3 -> steady e1 e3.
Proof. unfold steady; intuition congruence. Qed.

(** Everything [_step] does, whatever its outcome:
    - it leaves the constant part of the instance, [done] and the
      generator alone;
    - when the action cannot be denormalised it raises at once and
      changes nothing; otherwise the calls it adds to the log are
      position targets for the motors of arm A, with the denormalised
      values, or are not position targets at all;
    - when it returns, the counter has moved by the reward rule, the
      reward is the rule's, and the flag is the stored [done];
    - when the readings can be normalised and arm A has at most six
      motors, it gets as far as the reward rule, and then returns unless
      [done] is missing. *)
Lemma step_spec (actions : list Q) (rd : Readings Image) (e : env) :
  wp (_step JOINT_LIMITS actions rd)
     (fun r e' =>
        steady e e' /\
        (frames_after_hit e' = frames_after_hit e \/
         frames_after_hit e' =
           next_counter (colliding rd) (frames_after_hit e)) /\
        (forall obs reward d info,
            r = Ok (obs, reward, d, info) ->
            frames_after_hit e' =
              next_counter (colliding rd) (frames_after_hit e) /\
            reward = reward_of (colliding rd) (frames_after_hit e) /\
            done e = Some d /\ observation e' = Some obs) /\
        match _denormalize JOINT_LIMITS e (clip actions (-1) 1) with
        | Raise x => r = Raise x /\ e' = e
        | Ok t =>
            log_ext (fun c => targets_from (fst (motors e)) t c \/
                              not_target c) e e' /\
            forall n,
              (List.length (fst (motors e)) <= 6)%nat ->
              _normalize JOINT_LIMITS e (angles_read rd e) = Ok n ->
              frames_after_hit e' =
                next_counter (colliding rd) (frames_after_hit e) /\
              r = match done e with
                  | Some d =>
                      Ok ((camera_image rd, n ++ velocities_read rd e),
                          reward_of (colliding rd) (frames_after_hit e),
                          d, tt)
                  | None => Raise AttributeError
                  end
        end)
     e.
Proof.
unfold _step.
apply wp_bind, wp_gets; cbv beta iota.
apply wp_bind, wp_lift.
destruct (_denormalize JOINT_LIMITS e (clip actions (-1) 1)) as [t | x] eqn:Et.
2:{ refine (conj _ (conj (or_introl eq_refl) (conj _ (conj eq_refl eq_refl)))).
    - apply quiet_steady, quiet_refl.
    - intros; discriminate. }
assert (Lt : List.length t = 6%nat) by (apply (denormalize_nth _ _ Et)).
apply wp_bind.
eapply wp_mono; [apply gotoPos_spec |].
intros r1 e1 (Hq1 & _ & Hl1 & Hr1); cbv beta.
assert (Hl1' : log_ext (fun c => targets_from (fst (motors e)) t c \/
                                 not_target c) e e1)
  by (eapply log_ext_weaken; [| exact Hl1]; auto).
destruct r1 as [[] | x1].
2:{ refine (conj (quiet_steady Hq1) (conj (or_introl _) (conj _ (conj Hl1' _)))).
    - apply Hq1.
    - intros; discriminate.
    - intros n Hm _; rewrite Lt in Hr1; specialize (Hr1 Hm); discriminate. }
apply wp_bind, wp_call.
apply wp_bind.
eapply wp_mono; [apply self_observe_spec |].
intros r2 e2 (Hq2 & Hl2 & Hr2); cbv beta.
assert (Hq : quiet e e2).
{ eapply quiet_trans; [| exact Hq2]. apply quiet_call, Hq1. }
assert (Hl : log_ext (fun c => targets_from (fst (motors e)) t c \/
                               not_target c) e e2).
{ eapply log_ext_trans; [| eapply log_ext_weaken; [| exact Hl2]; auto].
  apply log_ext_call; [right; intros m v; discriminate | exact Hl1']. }
assert (Hn : _normalize JOINT_LIMITS
               (set_venv (step_blocking_simulation :: venv e1) e1)
               (map (joint_angle_of rd)
                    (fst (motors (set_venv (step_blocking_simulation :: venv e1) e1))))
             = _normalize JOINT_LIMITS e (angles_read rd e)).
{ unfold angles_read; cbn [motors set_venv].
  replace (motors e1) with (motors e) by (symmetry; apply Hq1).
  apply normalize_diffs; cbn; apply Hq1. }
rewrite Hn in Hr2; clear Hn.
cbn [motors set_venv] in Hr2.
replace (motors e1) with (motors e) in Hr2 by (symmetry; apply Hq1).
fold (velocities_read rd e) in Hr2.
destruct (_normalize JOINT_LIMITS e (angles_read rd e)) as [n | x2].
2:{ subst r2.
    refine (conj (quiet_steady Hq) (conj (or_introl _) (conj _ (conj Hl _)))).
    - apply Hq.
    - intros; discriminate.
    - intros n _ Hx; discriminate Hx. }
destruct Hr2 as [-> Ho2].
apply wp_bind, wp_getattr; rewrite Ho2.
apply wp_bind; unfold wp at 1; rewrite getReward_run; cbn [fst snd].
apply wp_bind, wp_getattr.
cbn [done set_frames_after_hit set_venv].
replace (done e2) with (done e) by (symmetry; apply Hq).
replace (frames_after_hit e2) with (frames_after_hit e) by (symmetry; apply Hq).
assert (Hs : steady e
               (set_frames_after_hit
                  (next_counter (colliding rd) (frames_after_hit e))
                  (set_venv (is_colliding :: venv e2) e2)))
  by (apply quiet_steady in Hq; unfold steady in *; cbn; tauto).
assert (Hlog : log_ext (fun c => targets_from (fst (motors e)) t c \/
                                  not_target c) e
                 (set_frames_after_hit
                    (next_counter (colliding rd) (frames_after_hit e))
                    (set_venv (is_colliding :: venv e2) e2))).
{ destruct Hl as [new [Hi Hf]]; exists (is_colliding :: new); split.
  - unfold issued in *; cbn; rewrite Hi; reflexivity.
  - constructor; [right; intros m v; discriminate | exact Hf]. }
destruct (done e) as [d |].
- apply wp_ret.
  refine (conj Hs (conj (or_intror eq_refl) (conj _ (conj Hlog _)))).
  + intros obs reward d' info H; injection H as <- <- <- <-.
    cbn; auto.
  + intros n' _ Hn'; injection Hn' as <-; auto.
- refine (conj Hs (conj (or_intror eq_refl) (conj _ (conj Hlog _)))).
  + intros; discriminate.
  + intros n' _ Hn'; injection Hn' as <-; auto.
Qed.

(** *** [_reset] *)

Lemma restPos_run (e : env) :
  constructed JOINT_LIMITS e ->
  _restPos np_random_randint e =
  (set_np_random (snd (draws np_random_randint RANDOM_NOISE (np_random e)))
     (set_venv
        (restPos_calls (fst (draws np_random_randint RANDOM_NOISE (np_random e)))
           ++ venv e)
        (set_done false e)),
   Ok tt).
Proof.
intros (Hm & _ & _).
destruct e as [hl v ms sw cm ds f d o g]; cbn in Hm; subst ms.
reflexivity.
Qed.

Lemma constructed_steady (e e' : env) :
  steady e e' -> constructed JOINT_LIMITS e -> constructed JOINT_LIMITS e'.
Proof.
unfold steady, constructed.
intros (_ & Hm & _ & Hc & Hd & _) (Cm & Cc & Cd).
rewrite Hm, Hc, Hd; auto.
Qed.

(** Everything [_reset] does on a constructed instance: [done] becomes
    false and the generator has made its six draws whatever the outcome;
    the log grows by the calls of [_restPos] followed by queries; the
    operation returns exactly when the joint angles read back can be
    normalised, and then the counter is -1. *)
Lemma reset_spec (rd : Readings Image) (e : env) :
  constructed JOINT_LIMITS e ->
  wp (_reset JOINT_LIMITS np_random_randint rd)
     (fun r e' =>
        constructed JOINT_LIMITS e' /\ done e' = Some false /\
        np_random e' =
          snd (draws np_random_randint RANDOM_NOISE (np_random e)) /\
        (exists q,
            issued e e'
              (q ++ restPos_calls
                      (fst (draws np_random_randint RANDOM_NOISE (np_random e))))
            /\ Forall not_target q) /\
        match _normalize JOINT_LIMITS e (angles_read rd e) with
        | Ok n =>
            r = Ok (camera_image rd, n ++ velocities_read rd e) /\
            frames_after_hit e' = (-1)%Z
        | Raise x => r = Raise x /\ frames_after_hit e' = frames_after_hit e
        end)
     e.
Proof.
intros C.
unfold _reset.
apply wp_bind; unfold wp at 1; rewrite (restPos_run C); cbn [fst snd].
set (noise := fst (draws np_random_randint RANDOM_NOISE (np_random e))).
set (g' := snd (draws np_random_randint RANDOM_NOISE (np_random e))).
set (e1 := set_np_random g' _).
apply wp_bind.
eapply wp_mono; [apply self_observe_spec |].
intros r2 e2 (Hq & [q [Hi Hf]] & Hr); cbv beta.
assert (C2 : constructed JOINT_LIMITS e2).
{ apply (constructed_steady (quiet_steady Hq)).
  destruct C as (Cm & Cc & Cd); unfold constructed; subst e1; cbn; auto. }
assert (D2 : done e2 = Some false).
{ replace (done e2) with (done e1) by (symmetry; apply Hq). reflexivity. }
assert (G2 : np_random e2 = g').
{ replace (np_random e2) with (np_random e1) by (symmetry; apply Hq).
  reflexivity. }
assert (L2 : issued e e2 (q ++ restPos_calls noise)).
{ unfold issued in *; rewrite Hi; subst e1; cbn [venv set_venv set_np_random].
  apply app_assoc. }
assert (F2 : frames_after_hit e2 = frames_after_hit e).
{ replace (frames_after_hit e2) with (frames_after_hit e1)
    by (symmetry; apply Hq). reflexivity. }
change (_normalize JOINT_LIMITS e1 (map (joint_angle_of rd) (fst (motors e1))))
  with (_normalize JOINT_LIMITS e (angles_read rd e)) in Hr.
change (map (joint_velocity_of rd) (fst (motors e1)))
  with (velocities_read rd e) in Hr.
destruct (_normalize JOINT_LIMITS e (angles_read rd e)) as [n | x].
- destruct Hr as [-> Ho].
  apply wp_bind, wp_modify; apply wp_getattr.
  cbn [observation set_frames_after_hit]; rewrite Ho.
  refine (conj _ (conj D2 (conj G2 (conj _ (conj eq_refl eq_refl))))).
  + exact C2.
  + exists q; split; [exact L2 | exact Hf].
- subst r2.
  refine (conj C2 (conj D2 (conj G2 (conj _ (conj eq_refl F2))))).
  exists q; split; [exact L2 | exact Hf].
Qed.

(** *** Invariants of reachable instances *)

Lemma step_steady (actions : list Q) (rd : Readings Image) (e : env) :
  steady e (fst (_step JOINT_LIMITS actions rd e)).
Proof. apply (step_spec actions rd e). Qed.

Lemma step_counter_ok (actions : list Q) (rd : Readings Image) (e : env) :
  counter_ok (frames_after_hit e) ->
  counter_ok (frames_after_hit (fst (_step JOINT_LIMITS actions rd e))).
Proof.
intros H.
destruct (step_spec actions rd e) as (_ & [-> | ->] & _);
  [exact H | apply next_counter_ok, H].
Qed.

Lemma reachable_inv (e : env) :
  reachable JOINT_LIMITS np_random_seed np_random_randint e ->
  constructed JOINT_LIMITS e /\ counter_ok (frames_after_hit e).
Proof.
induction 1 as [hl g e H | s g e _ [C K] | rd e _ [C K] | a rd e _ [C K]
                | e _ IH | e _ [C K]].
- apply init_Ok_inv in H; destruct H as (C & -> & _).
  split; [exact C | left; reflexivity].
- unfold _seed; destruct s as [s |];
    [destruct ((0 <=? s) && (s <? 2 ^ 32))%Z |]; split; assumption.
- pose proof (reset_spec rd C) as (C' & _ & _ & _ & Hr).
  split; [exact C' |].
  destruct (_normalize JOINT_LIMITS e (angles_read rd e)).
  + destruct Hr as [_ ->]; left; reflexivity.
  + destruct Hr as [_ ->]; exact K.
- split.
  + exact (constructed_steady (step_steady a rd e) C).
  + apply step_counter_ok, K.
- exact IH.
- split; [exact C | exact K].
Qed.

(** On a constructed instance, with a proper limit table and a
    six-element action, a step call gets as far as the reward rule; it
    then returns, unless [done] has not been created. *)
Lemma step_outcome (actions : list Q) (rd : Readings Image) (e : env) :
  constructed JOINT_LIMITS e -> limits_proper JOINT_LIMITS ->
  List.length actions = 6%nat ->
  exists e' n,
    _normalize JOINT_LIMITS e (angles_read rd e) = Ok n /\
    _step JOINT_LIMITS actions rd e =
    (e', match done e with
         | Some d =>
             Ok ((camera_image rd, n ++ velocities_read rd e),
                 reward_of (colliding rd) (frames_after_hit e), d, tt)
         | None => Raise AttributeError
         end) /\
    frames_after_hit e' = next_counter (colliding rd) (frames_after_hit e).
Proof.
intros C P L.
destruct (_step JOINT_LIMITS actions rd e) as [e' r] eqn:H.
pose proof (wp_run _ _ _ (step_spec actions rd e) H) as (_ & _ & _ & Hd).
cbv beta in Hd.
destruct C as (Cm & Cc & Cd).
destruct (@denormalize_total e (clip actions (-1) 1) Cd)
  as [t Et]; [rewrite clip_length; lia |].
rewrite Et in Hd; destruct Hd as [_ Hn].
destruct (@normalize_total e (angles_read rd e) Cd P) as [n En].
{ unfold angles_read; rewrite length_map, Cm; cbn; lia. }
destruct (Hn n) as [Hf ->]; [rewrite Cm; cbn; lia | exact En |].
exists e', n; auto.
Qed.

(** *** The reward state machine *)

(** C2. The hit counter is -1 or one of 0, 1, 2 at every operation
    boundary: it is -1 once the constructor has returned and once a
    reset has returned; a step call, whatever its outcome, takes a
    counter of that set to a counter of that set; so every reachable
    instance has its counter in the set, and never the value 3. *)
Theorem counter_invariant :
  (forall hl g (e : env),
      __init__ JOINT_LIMITS Image hl g = Ok e ->
      frames_after_hit e = (-1)%Z) /\
  (forall rd (e e' : env) obs,
      _reset JOINT_LIMITS np_random_randint rd e = (e', Ok obs) ->
      frames_after_hit e' = (-1)%Z) /\
  (forall actions rd (e : env),
      In (frames_after_hit e) [-1; 0; 1; 2]%Z ->
      In (frames_after_hit (fst (_step JOINT_LIMITS actions rd e)))
         [-1; 0; 1; 2]%Z) /\
  (forall e : env,
      reachable JOINT_LIMITS np_random_seed np_random_randint e ->
      In (frames_after_hit e) [-1; 0; 1; 2]%Z /\
      frames_after_hit e <> INVULNERABILITY_AFTER_HIT).
Proof.
assert (E : forall f, counter_ok f <-> In f [-1; 0; 1; 2]%Z).
{ intros f; unfold counter_ok, INVULNERABILITY_AFTER_HIT; cbn [In]; lia. }
repeat split.
- intros hl g e H; apply init_Ok_inv in H; apply H.
- intros rd e e' obs H.
  apply bind_Ok_inv in H; destruct H as (_ & e1 & _ & H).
  apply bind_Ok_inv in H; destruct H as (_ & e2 & _ & H).
  apply bind_Ok_inv in H; destruct H as (u & e3 & H3 & H).
  assert (F3 : frames_after_hit e3 = (-1)%Z)
    by (inversion H3; reflexivity).
  unfold getattr in H.
  destruct (observation e3); inversion H; subst; exact F3.
- intros actions rd e H; apply E, step_counter_ok, E, H.
- apply E, (reachable_inv H).
- apply reachable_inv in H; destruct H as [_ K].
  unfold counter_ok, INVULNERABILITY_AFTER_HIT in *; lia.
Qed.

(** C5. The reward a step call returns is 0 or 1; it is 1 exactly when
    the collision sensor reports a collision and the counter was -1
    before the call; then the counter is 0 after the call; in every
    other case the reward is 0.  On a constructed instance that has been
    reset, with a six-element action and a proper limit table, the call
    does return. *)
Theorem step_reward_rule :
  (forall actions rd (e e' : env) obs reward d info,
      _step JOINT_LIMITS actions rd e = (e', Ok (obs, reward, d, info)) ->
      (reward = 0 \/ reward = 1)%Z /\
      (reward = 1%Z <-> colliding rd = true /\ frames_after_hit e = (-1)%Z) /\
      (reward = 1%Z -> frames_after_hit e' = 0%Z) /\
      (~ (colliding rd = true /\ frames_after_hit e = (-1)%Z) ->
       reward = 0%Z)) /\
  (forall actions rd (e : env) d,
      constructed JOINT_LIMITS e -> limits_proper JOINT_LIMITS ->
      List.length actions = 6%nat -> done e = Some d ->
      exists e' obs,
        _step JOINT_LIMITS actions rd e =
        (e', Ok (obs, reward_of (colliding rd) (frames_after_hit e), d, tt))).
Proof.
split.
- intros actions rd e e' obs reward d info H.
  pose proof (wp_run _ _ _ (step_spec actions rd e) H) as (_ & _ & Hr & _).
  cbv beta in Hr.
  destruct (Hr obs reward d info eq_refl) as (Hf & -> & _ & _).
  rewrite Hf.
  destruct (reward_of_cases (colliding rd) (frames_after_hit e))
    as [(-> & Hc & Hm & Hn) | (-> & Hno)].
  + repeat split; auto; intros; try tauto; lia.
  + repeat split; auto; intros; try tauto; try lia; discriminate.
- intros actions rd e d C P L D.
  destruct (@step_outcome actions rd e C P L) as (e' & n & _ & H & _).
  rewrite D in H; eauto.
Qed.

(** C1 (the code does otherwise). A colliding step taken while the
    counter is 0, 1 or 2 yields reward 0, and the counter does NOT stay
    where it was: [_getReward] advances it exactly as on a non-colliding
    step (to the next value, and from 2 back to -1). *)
Theorem colliding_while_cooling_advances (rd : Readings Image) (e : env) :
  colliding rd = true ->
  (0 <= frames_after_hit e < INVULNERABILITY_AFTER_HIT)%Z ->
  snd (_getReward rd e) = Ok 0%Z /\
  frames_after_hit (fst (_getReward rd e)) =
    (if (frames_after_hit e =? 2)%Z then -1 else frames_after_hit e + 1)%Z /\
  frames_after_hit (fst (_getReward rd e)) <> frames_after_hit e.
Proof.
unfold INVULNERABILITY_AFTER_HIT; intros Hc Hf.
rewrite getReward_run; cbn [fst snd frames_after_hit set_frames_after_hit].
unfold reward_of, next_counter, INVULNERABILITY_AFTER_HIT; rewrite Hc.
cbn [andb].
destruct (Z.eqb_spec (frames_after_hit e) (-1)); [lia |].
destruct (Z.geb_spec (frames_after_hit e) 0); [| lia].
destruct (Z.geb_spec (frames_after_hit e + 1) 3);
  destruct (Z.eqb_spec (frames_after_hit e) 2); repeat split; lia.
Qed.

(** C6. Whatever the counter and the flag were, a reset of a constructed
    instance (with a proper limit table) returns, and leaves the counter
    at -1 and the flag at false. *)
Theorem reset_clears_counter_and_flag (rd : Readings Image) (e : env) :
  constructed JOINT_LIMITS e -> limits_proper JOINT_LIMITS ->
  exists e' obs,
    _reset JOINT_LIMITS np_random_randint rd e = (e', Ok obs) /\
    frames_after_hit e' = (-1)%Z /\ done e' = Some false.
Proof.
intros C P.
destruct (_reset JOINT_LIMITS np_random_randint rd e) as [e' r] eqn:H.
pose proof (wp_run _ _ _ (reset_spec rd C) H) as (_ & D & _ & _ & Hr).
cbv beta in Hr.
destruct C as (Cm & Cc & Cd).
destruct (@normalize_total e (angles_read rd e) Cd P) as [n En].
{ unfold angles_read; rewrite length_map, Cm; cbn; lia. }
rewrite En in Hr; destruct Hr as [-> F].
eauto.
Qed.

(** *** The termination flag *)

Lemma run_steps_done (inputs : list (list Q * Readings Image)) :
  forall e : env,
    done (fst (run_steps JOINT_LIMITS inputs e)) = done e /\
    Forall (fun r => forall obs reward d info,
                r = Ok (obs, reward, d, info) -> done e = Some d)
           (snd (run_steps JOINT_LIMITS inputs e)).
Proof.
induction inputs as [| [a rd] inputs IH]; intros e; cbn [run_steps fst snd].
- split; [reflexivity | constructor].
- destruct (_step JOINT_LIMITS a rd e) as [e1 r1] eqn:H1.
  pose proof (wp_run _ _ _ (step_spec a rd e) H1) as (Hs & _ & Hr & _).
  cbv beta in Hr; cbn [fst snd].
  assert (D1 : done e1 = done e) by apply Hs.
  destruct (IH e1) as [IHd IHf]; rewrite D1 in IHd, IHf.
  split; [exact IHd |].
  constructor; [| exact IHf].
  intros obs reward d info ->; apply (Hr obs reward d info eq_refl).
Qed.

Lemma run_steps_returns (inputs : list (list Q * Readings Image)) :
  limits_proper JOINT_LIMITS ->
  Forall (fun ar => List.length (fst ar) = 6%nat) inputs ->
  forall (e : env) (d : bool),
    constructed JOINT_LIMITS e -> done e = Some d ->
    Forall (fun r => exists obs reward, r = Ok (obs, reward, d, tt))
           (snd (run_steps JOINT_LIMITS inputs e)).
Proof.
intros P; induction 1 as [| [a rd] inputs L _ IH]; intros e d C D;
  cbn [run_steps fst snd]; constructor.
- destruct (@step_outcome a rd e C P L) as (e' & n & _ & H & _).
  rewrite H, D; cbn [snd]; eauto.
- apply IH.
  + exact (constructed_steady (step_steady a rd e) C).
  + rewrite <- D; apply (step_steady a rd e).
Qed.

(** C7. No step call changes [done]; the flag a step call returns is
    the stored one; so after a reset of a constructed instance every
    step call of the episode that returns, returns the flag false, and
    with a proper limit table and six-element actions every call of the
    episode does return. *)
Theorem termination_flag_always_false :
  (forall actions rd (e : env),
      done (fst (_step JOINT_LIMITS actions rd e)) = done e) /\
  (forall rd0 (e : env) inputs,
      constructed JOINT_LIMITS e ->
      let e1 := fst (_reset JOINT_LIMITS np_random_randint rd0 e) in
      done e1 = Some false /\
      done (fst (run_steps JOINT_LIMITS inputs e1)) = Some false /\
      Forall (fun r => forall obs reward d info,
                  r = Ok (obs, reward, d, info) -> d = false)
             (snd (run_steps JOINT_LIMITS inputs e1)) /\
      (limits_proper JOINT_LIMITS ->
       Forall (fun ar => List.length (fst ar) = 6%nat) inputs ->
       Forall (fun r => exists obs reward, r = Ok (obs, reward, false, tt))
              (snd (run_steps JOINT_LIMITS inputs e1)))).
Proof.
split.
- intros actions rd e; apply (step_steady actions rd e).
- intros rd0 e inputs C e1.
  pose proof (reset_spec rd0 C) as (C1 & D1 & _); fold e1 in C1, D1.
  destruct (run_steps_done inputs e1) as [Hd Hf]; rewrite D1 in Hd, Hf.
  refine (conj D1 (conj Hd (conj _ _))).
  + eapply Forall_impl; [| exact Hf].
    intros r Hr obs reward d info E.
    specialize (Hr obs reward d info E); congruence.
  + intros P L; exact (run_steps_returns P L C1 D1).
Qed.

(** C10. On a freshly constructed instance [done] does not exist, and a
    step call (six-element action, proper limit table) raises an
    attribute error; it does so at the very end, after the reward rule
    has moved the counter.  Nothing else is missing: the same call
    returns once a reset has returned. *)
Theorem step_before_reset_raises (hl : bool) (g : Rng) (e : env)
        (actions : list Q) (rd : Readings Image) :
  __init__ JOINT_LIMITS Image hl g = Ok e ->
  limits_proper JOINT_LIMITS ->
  List.length actions = 6%nat ->
  done e = None /\
  snd (_step JOINT_LIMITS actions rd e) = Raise AttributeError /\
  frames_after_hit (fst (_step JOINT_LIMITS actions rd e)) =
    next_counter (colliding rd) (-1) /\
  forall rd0 e1 obs0,
    _reset JOINT_LIMITS np_random_randint rd0 e = (e1, Ok obs0) ->
    exists e2 obs reward,
      _step JOINT_LIMITS actions rd e1 = (e2, Ok (obs, reward, false, tt)).
Proof.
intros H P L.
apply init_Ok_inv in H; destruct H as (C & F & D & _).
destruct (@step_outcome actions rd e C P L) as (e' & n & _ & Hs & Hf).
rewrite D in Hs; rewrite F in Hf.
rewrite Hs; cbn [fst snd].
refine (conj D (conj eq_refl (conj Hf _))).
intros rd0 e1 obs0 Hr.
pose proof (wp_run _ _ _ (reset_spec rd0 C) Hr) as (C1 & D1 & _).
destruct (@step_outcome actions rd e1 C1 P L) as (e2 & n2 & _ & Hs2 & _).
rewrite D1 in Hs2; eauto.
Qed.

(** *** Normalisation round trip and the action clamp *)

(** C3. With a proper limit table ([min < max] for each joint), the
    angles of a six-element pose can be normalised and the result
    denormalised; at every joint whose angle lies within its limits the
    round trip gives the angle back (as a rational number) and the
    normalised value lies in [-1, 1]. *)
Theorem normalize_denormalize_roundtrip (self : env) (pos : list Q) :
  init_diffs JOINT_LIMITS = Ok (diffs self) ->
  limits_proper JOINT_LIMITS ->
  List.length pos = 6%nat ->
  exists n d,
    _normalize JOINT_LIMITS self pos = Ok n /\
    _denormalize JOINT_LIMITS self n = Ok d /\
    forall i x lim,
      (i < 6)%nat ->
      nth_error pos i = Some x -> nth_error JOINT_LIMITS i = Some lim ->
      (fst lim <= x <= snd lim)%Q ->
      (exists y, nth_error d i = Some y /\ (y == x)%Q) /\
      (exists z, nth_error n i = Some z /\ (-1 <= z <= 1)%Q).
Proof.
intros Hd P L.
destruct (@normalize_total self pos Hd P) as [n En]; [lia |].
destruct (normalize_nth _ _ En) as [Ln Hn].
destruct (@denormalize_total self n Hd) as [d Ed]; [lia |].
destruct (denormalize_nth _ _ Ed) as [_ Hdn].
exists n, d; refine (conj En (conj Ed _)).
intros i x lim Hi Hx Hlim Hrange.
destruct (Hn i Hi) as (x' & lim' & w & Hx' & Hlim' & Hw & _ & Hni).
destruct (Hdn i Hi) as (a & lim'' & w' & Ha & Hlim'' & Hw' & Hdi).
destruct (init_diffs_nth Hd Hi) as (lim0 & Hlim0 & Hw0).
assert (x' = x) by congruence.
assert (lim' = lim) by congruence.
assert (lim'' = lim) by congruence.
assert (lim0 = lim) by congruence.
subst x' lim' lim'' lim0.
assert (w = (snd lim - fst lim)%Q) by congruence.
assert (w' = (snd lim - fst lim)%Q) by congruence.
assert (a = ((x - fst lim) / w * 2 - 1)%Q) by congruence.
subst w w' a.
specialize (P i lim Hi Hlim).
split.
- eexists; split; [exact Hdi | apply affine_roundtrip, P].
- eexists; split; [exact Hni | apply normalized_in_unit_box; assumption].
Qed.

(** The safety property for actions that hold numbers only.  For a
    six-element action of numbers, whatever their size, on a
    constructed instance whose limit table has [min <= max] for each
    joint: every component of the clamped action lies in [-1, 1]; the
    clamped action can be denormalised and each denormalised value lies
    within the limits of its joint; and every position target the step
    call sends to the simulator is one of these values, sent to the
    motor of arm A with the same index. *)
Theorem step_targets_within_limits (actions : list Q) (rd : Readings Image)
        (e : env) :
  constructed JOINT_LIMITS e ->
  limits_ordered JOINT_LIMITS ->
  List.length actions = 6%nat ->
  (forall x, In x (clip actions (-1) 1) -> (-1 <= x <= 1)%Q) /\
  exists t,
    _denormalize JOINT_LIMITS e (clip actions (-1) 1) = Ok t /\
    (forall i, (i < 6)%nat ->
       exists v lim,
         nth_error t i = Some v /\ nth_error JOINT_LIMITS i = Some lim /\
         (fst lim <= v <= snd lim)%Q) /\
    exists new,
      issued e (fst (_step JOINT_LIMITS actions rd e)) new /\
      forall m v,
        In (set_position_target m v) new ->
        exists i lim,
          nth_error (fst (motors e)) i = Some m /\
          nth_error t i = Some v /\
          nth_error JOINT_LIMITS i = Some lim /\
          (fst lim <= v <= snd lim)%Q.
Proof.
intros (Cm & Cc & Cd) O L.
split; [apply clip_in_unit_box |].
destruct (@denormalize_total e (clip actions (-1) 1) Cd)
  as [t Et]; [rewrite clip_length; lia |].
destruct (denormalize_nth _ _ Et) as [Lt Ht].
assert (B : forall i, (i < 6)%nat ->
              exists v lim,
                nth_error t i = Some v /\ nth_error JOINT_LIMITS i = Some lim /\
                (fst lim <= v <= snd lim)%Q).
{ intros i Hi.
  destruct (Ht i Hi) as (a & lim & w & Ha & Hlim & Hw & Hti).
  destruct (init_diffs_nth Cd Hi) as (lim0 & Hlim0 & Hw0).
  assert (lim0 = lim) by congruence; subst lim0.
  assert (w = (snd lim - fst lim)%Q) by congruence; subst w.
  exists ((a + 1) / 2 * (snd lim - fst lim) + fst lim)%Q, lim.
  refine (conj Hti (conj Hlim _)).
  apply denormalized_in_limits; [apply (O i lim Hi Hlim) |].
  apply (clip_in_unit_box actions), (nth_error_In _ _ Ha). }
exists t; refine (conj Et (conj B _)).
pose proof (step_spec actions rd e) as (_ & _ & _ & Hlog).
cbv beta in Hlog; rewrite Et in Hlog; destruct Hlog as [[new [Hi Hf]] _].
exists new; split; [exact Hi |].
intros m v Hin.
rewrite Forall_forall in Hf.
destruct (Hf _ Hin) as [(i & m' & v' & E & Hm & Hv) | Hnot].
- injection E as <- <-.
  assert (Hi6 : (i < 6)%nat).
  { rewrite <- Lt; apply nth_error_Some; congruence. }
  destruct (B i Hi6) as (v0 & lim & Hv0 & Hlim & Hb).
  assert (v0 = v) by congruence; subst v0.
  exists i, lim; auto.
- exfalso; exact (Hnot m v eq_refl).
Qed.

(** *** The commanded pose of arm B *)

Lemma arms_disjoint (m : SimObject) :
  In m (robot_motors 0) -> In m (robot_motors 1) -> False.
Proof.
intros H0 H1.
assert (N : forall a, In a (robot_motors 1) ->
              String.get 1 (obj_name a) = Some "2"%char).
{ intros a Ha; cbn in Ha.
  repeat (destruct Ha as [<- | Ha]; [reflexivity |]); contradiction. }
specialize (N m H1).
cbn in H0.
repeat (destruct H0 as [<- | H0]; [discriminate N |]); contradiction.
Qed.

Lemma SimObject_eqb_true (a b : SimObject) :
  SimObject_eqb a b = true -> a = b.
Proof.
unfold SimObject_eqb; intros H.
apply andb_true_iff in H; destruct H as [Hn Hj].
apply String.eqb_eq in Hn; apply Bool.eqb_prop in Hj.
destruct a, b; cbn in *; congruence.
Qed.

(** Calls that are not position targets for [m] do not change what is
    commanded to [m]. *)
Lemma commanded_app (m : SimObject) (new log : list SimCall) :
  (forall v, ~ In (set_position_target m v) new) ->
  commanded m (new ++ log) = commanded m log.
Proof.
induction new as [| c new IH]; intros H; cbn [app commanded];
  [reflexivity |].
assert (IH' : commanded m (new ++ log) = commanded m log).
{ apply IH; intros v Hv; apply (H v); right; exact Hv. }
destruct c; try exact IH'.
destruct (SimObject_eqb m m0) eqn:E; [| exact IH'].
apply SimObject_eqb_true in E; subst m0.
exfalso; apply (H pos); left; reflexivity.
Qed.

Lemma step_issues_arm_A_only (actions : list Q) (rd : Readings Image)
      (e : env) :
  exists new,
    issued e (fst (_step JOINT_LIMITS actions rd e)) new /\
    forall m v, In (set_position_target m v) new -> In m (fst (motors e)).
Proof.
pose proof (step_spec actions rd e) as (_ & _ & _ & Hlog); cbv beta in Hlog.
destruct (_denormalize JOINT_LIMITS e (clip actions (-1) 1)) as [t | x].
- destruct Hlog as [[new [Hi Hf]] _].
  exists new; split; [exact Hi |].
  intros m v Hin; rewrite Forall_forall in Hf.
  destruct (Hf _ Hin) as [(i & m' & v' & E & Hm & _) | Hnot].
  + injection E as <- <-; exact (nth_error_In _ _ Hm).
  + exfalso; exact (Hnot m v eq_refl).
- destruct Hlog as [_ ->].
  exists []; split; [reflexivity | intros m v []].
Qed.

Lemma step_keeps_arm_B_pose (actions : list Q) (rd : Readings Image)
      (e : env) :
  constructed JOINT_LIMITS e ->
  commanded_pose (snd (motors e))
                 (venv (fst (_step JOINT_LIMITS actions rd e))) =
  commanded_pose (snd (motors e)) (venv e).
Proof.
intros (Cm & _).
destruct (step_issues_arm_A_only actions rd e) as [new [Hi Hn]].
unfold issued in Hi; rewrite Hi.
unfold commanded_pose; apply map_ext_in; intros m Hm.
apply commanded_app; intros v Hv.
specialize (Hn m v Hv); rewrite Cm in Hn, Hm; cbn [fst snd] in Hn, Hm.
exact (arms_disjoint Hn Hm).
Qed.

(** C8. On a constructed instance, every position target a step call
    sends goes to a motor of arm A ([motors[0]]) and none to a motor of
    arm B; so the pose commanded to arm B is the same after the call as
    before, and the same after any number of step calls. *)
Theorem step_never_commands_arm_B (e : env) :
  constructed JOINT_LIMITS e ->
  (forall actions rd,
      exists new,
        issued e (fst (_step JOINT_LIMITS actions rd e)) new /\
        forall m v, In (set_position_target m v) new ->
                    In m (fst (motors e)) /\ ~ In m (snd (motors e))) /\
  (forall inputs,
      commanded_pose (snd (motors e))
                     (venv (fst (run_steps JOINT_LIMITS inputs e))) =
      commanded_pose (snd (motors e)) (venv e)).
Proof.
intros C; split.
- intros actions rd.
  destruct (step_issues_arm_A_only actions rd e) as [new [Hi Hn]].
  exists new; split; [exact Hi |].
  intros m v Hv; specialize (Hn m v Hv); split; [exact Hn |].
  destruct C as (Cm & _); rewrite Cm in Hn |- *; cbn [fst snd] in Hn |- *.
  exact (arms_disjoint Hn).
- intros inputs; revert e C.
  induction inputs as [| [a rd] inputs IH]; intros e C;
    cbn [run_steps fst snd]; [reflexivity |].
  pose proof (step_steady a rd e) as Hs.
  assert (Hm : motors (fst (_step JOINT_LIMITS a rd e)) = motors e)
    by apply Hs.
  rewrite <- (step_keeps_arm_B_pose a rd C), <- Hm.
  apply IH, (constructed_steady Hs C).
Qed.

(** *** The random stance of arm B *)

Lemma draws_length (ranges : list (Z * Z)) :
  forall g : Rng,
    List.length (fst (draws np_random_randint ranges g)) = List.length ranges.
Proof.
induction ranges as [| lh ranges IH]; intros g; cbn; [reflexivity |].
rewrite IH; reflexivity.
Qed.

Lemma draws_in_range (ranges : list (Z * Z)) :
  randint_contract np_random_randint ->
  forall (g : Rng) i lo hi r,
    nth_error ranges i = Some (lo, hi) -> (lo < hi)%Z ->
    nth_error (fst (draws np_random_randint ranges g)) i = Some r ->
    (lo <= r < hi)%Z.
Proof.
intros K; induction ranges as [| lh ranges IH]; intros g i lo hi r Hi Hlt Hr.
- destruct i; discriminate Hi.
- destruct i as [| i]; cbn in Hi, Hr.
  + injection Hi as ->; injection Hr as <-; cbn [fst snd].
    apply K, Hlt.
  + exact (IH _ i lo hi r Hi Hlt Hr).
Qed.

Lemma restPos_commanded (noise : list Z) (log : list SimCall)
      (i : nat) (m : SimObject) (rest r : Z) :
  List.length noise = 6%nat ->
  nth_error (robot_motors 1) i = Some m ->
  nth_error REST_POS i = Some rest ->
  nth_error noise i = Some r ->
  commanded m (restPos_calls noise ++ log) = Some (inject_Z (rest + r)) /\
  In (set_position_target m (inject_Z (rest + r))) (restPos_calls noise).
Proof.
intros L Hm Hrest Hr.
destruct noise as [| n0 [| n1 [| n2 [| n3 [| n4 [| n5 [| ? ?]]]]]]];
  try discriminate L.
destruct i as [| [| [| [| [| [| i]]]]]]; cbn in Hm, Hrest, Hr;
  try (destruct i; discriminate Hm);
  injection Hm as <-; injection Hrest as <-; injection Hr as <-;
  (split; [reflexivity |]);
  cbn; repeat (first [left; reflexivity | right]).
Qed.

(** C9. On a reset of a constructed instance, arm B has six motors and
    each motor [i] is commanded the rest position [REST_POS[i]] plus the
    [i]-th integer drawn from the generator with the range
    [RANDOM_NOISE[i] = (low, high)]; the generator's contract puts the
    draw in [low, high), so the commanded value lies within
    [REST_POS[i] + low, REST_POS[i] + high]; and that value is still the
    one commanded to the motor when the reset ends. *)
Theorem reset_commands_arm_B (rd : Readings Image) (e : env) :
  constructed JOINT_LIMITS e ->
  randint_contract np_random_randint ->
  List.length (snd (motors e)) = 6%nat /\
  forall i m rest lo hi,
    nth_error (snd (motors e)) i = Some m ->
    nth_error REST_POS i = Some rest ->
    nth_error RANDOM_NOISE i = Some (lo, hi) ->
    exists r new,
      nth_error (fst (draws np_random_randint RANDOM_NOISE (np_random e))) i
        = Some r /\
      (lo <= r < hi)%Z /\
      issued e (fst (_reset JOINT_LIMITS np_random_randint rd e)) new /\
      In (set_position_target m (inject_Z (rest + r))) new /\
      commanded m (venv (fst (_reset JOINT_LIMITS np_random_randint rd e)))
        = Some (inject_Z (rest + r)) /\
      (inject_Z (rest + lo) <= inject_Z (rest + r) <= inject_Z (rest + hi))%Q.
Proof.
intros C K.
pose proof C as (Cm & _).
split; [rewrite Cm; reflexivity |].
intros i m rest lo hi Hm Hrest Hnoise.
rewrite Cm in Hm; cbn [snd] in Hm.
pose proof (reset_spec rd C) as (_ & _ & _ & [q [Hi Hq]] & _).
set (noise := fst (draws np_random_randint RANDOM_NOISE (np_random e))) in *.
assert (Ln : List.length noise = 6%nat) by (apply draws_length).
assert (Hi6 : (i < 6)%nat).
{ change 6%nat with (List.length (robot_motors 1)).
  apply nth_error_Some; congruence. }
destruct (nth_error noise i) as [r |] eqn:Hr.
2:{ apply nth_error_None in Hr; lia. }
assert (Hlt : (lo < hi)%Z).
{ do 6 (destruct i as [| i]; [cbn in Hnoise; injection Hnoise as <- <-; lia |]).
  lia. }
pose proof (@draws_in_range RANDOM_NOISE K (np_random e) i lo hi r Hnoise Hlt Hr)
  as Hb.
destruct (@restPos_commanded noise (venv e) i m rest r Ln Hm Hrest Hr)
  as [Hc Hin].
exists r, (q ++ restPos_calls noise).
refine (conj eq_refl (conj Hb (conj Hi (conj _ (conj _ _))))).
- apply in_or_app; right; exact Hin.
- unfold issued in Hi; rewrite Hi, <- app_assoc.
  rewrite commanded_app; [exact Hc |].
  intros v Hv; rewrite Forall_forall in Hq; exact (Hq _ Hv m v eq_refl).
- rewrite <- !Zle_Qle; lia.
Qed.

(** *** The exact effect of the operations on a constructed instance *)

Lemma bind_run {S A B : Type} (c : M S A) (k : A -> M S B) (e e1 : S) (a : A) :
  c e = (e1, Ok a) -> bind c k e = k a e1.
Proof. intros H; cbn [bind M_Monad]; rewrite H; reflexivity. Qed.

Lemma bind_raise {S A B : Type} (c : M S A) (k : A -> M S B) (e e1 : S)
      (x : exn) :
  c e = (e1, Raise x) -> bind c k e = (e1, Raise x).
Proof. intros H; cbn [bind M_Monad]; rewrite H; reflexivity. Qed.

(** [_gotoPos] commands the motors of arm A in order for as long as the
    pose has values, and raises once the pose runs out; values past the
    sixth are not read. *)
Lemma gotoPos_run (pos : list Q) (e : env) :
  fst (motors e) = robot_motors 0 ->
  _gotoPos pos e =
  (set_venv (target_calls (robot_motors 0) pos ++ venv e) e,
   if (6 <=? List.length pos)%nat then Ok tt else Raise IndexError).
Proof.
destruct e as [hl v [ma mb] sw cm ds f d o g]; cbn [motors fst]; intros ->.
destruct pos as [| p0 [| p1 [| p2 [| p3 [| p4 [| p5 pos]]]]]]; reflexivity.
Qed.

Lemma read_joints_run (rd : Readings Image) (ms : list SimObject) :
  forall (pos vel : list Q) (e : env),
    read_joints rd (enumerate ms) pos vel e =
    (set_venv (joint_queries ms ++ venv e) e,
     Ok (pos ++ map (joint_angle_of rd) ms,
         vel ++ map (joint_velocity_of rd) ms)).
Proof.
unfold enumerate; generalize 0%nat.
induction ms as [| m ms IH]; intros s pos vel e.
- destruct e; cbn; rewrite !app_nil_r; reflexivity.
- cbn [List.length seq combine read_joints].
  cbn [bind M_Monad call modify snd].
  rewrite IH; cbn [venv set_venv map].
  unfold joint_queries; cbn [flat_map app rev].
  rewrite <- !app_assoc; cbn [app].
  reflexivity.
Qed.

Lemma self_observe_run (rd : Readings Image) (e : env) :
  _self_observe JOINT_LIMITS rd e =
  match _normalize JOINT_LIMITS e (angles_read rd e) with
  | Ok n =>
      (set_observation (camera_image rd, n ++ velocities_read rd e)
         (set_venv (observe_calls e ++ venv e) e),
       Ok tt)
  | Raise x =>
      (set_venv (joint_queries (fst (motors e)) ++ venv e) e, Raise x)
  end.
Proof.
unfold _self_observe.
cbn [bind M_Monad gets].
rewrite (read_joints_run rd (fst (motors e)) [] [] e).
cbn [bind M_Monad gets lift app fst snd].
change (_normalize JOINT_LIMITS
          (set_venv (joint_queries (fst (motors e)) ++ venv e) e)
          (map (joint_angle_of rd) (fst (motors e))))
  with (_normalize JOINT_LIMITS e (angles_read rd e)).
destruct (_normalize JOINT_LIMITS e (angles_read rd e)) as [n | x];
  reflexivity.
Qed.

(** A step call on a constructed instance, start to end: the action is
    clamped and denormalised, arm A is commanded, the simulation makes
    one step, arm A is read back, the reward rule runs, and [done] is
    read last. *)
Lemma step_run (actions : list Q) (rd : Readings Image) (e : env)
      (t n : list Q) :
  fst (motors e) = robot_motors 0 ->
  _denormalize JOINT_LIMITS e (clip actions (-1) 1) = Ok t ->
  _normalize JOINT_LIMITS e (angles_read rd e) = Ok n ->
  _step JOINT_LIMITS actions rd e =
  (set_frames_after_hit
     (next_counter (colliding rd) (frames_after_hit e))
     (set_observation (camera_image rd, n ++ velocities_read rd e)
        (set_venv (step_calls e t ++ venv e) e)),
   match done e with
   | Some d =>
       Ok ((camera_image rd, n ++ velocities_read rd e),
           reward_of (colliding rd) (frames_after_hit e), d, tt)
   | None => Raise AttributeError
   end).
Proof.
intros Hm Et En.
assert (Lt : List.length t = 6%nat) by (apply (denormalize_nth _ _ Et)).
unfold _step.
cbn [bind M_Monad gets lift].
rewrite Et.
rewrite (gotoPos_run t e Hm), Lt.
change (6 <=? 6)%nat with true.
cbn [bind M_Monad call modify].
set (e2 := set_venv (step_blocking_simulation :: _) _).
assert (En2 : _normalize JOINT_LIMITS e2 (angles_read rd e2) = Ok n) by exact En.
rewrite (self_observe_run rd e2), En2.
cbn [bind M_Monad getattr observation set_observation].
rewrite getReward_run.
cbn [bind M_Monad getattr done set_frames_after_hit set_venv ret].
subst e2.
destruct e as [hl v [ma mb] sw cm ds f d o g]; cbn [motors fst] in Hm; subst ma.
destruct d as [d |]; reflexivity.
Qed.

(** *** Construction and short or long inputs *)

Lemma collect_Raise {A B : Type} (f : A -> result B) (l : list A) (x : exn) :
  collect l f = Raise x -> exists a, In a l /\ f a = Raise x.
Proof.
induction l as [| a l IH]; cbn; intros H; [discriminate H |].
destruct (f a) as [y | x'] eqn:Ea.
- destruct (collect l f) as [ys | x'']; [discriminate H |].
  injection H as ->.
  destruct (IH eq_refl) as (a' & Hin & Ha'); eauto.
- injection H as ->; eauto.
Qed.

Lemma collect_ext {A B : Type} (f g : A -> result B) (l : list A) :
  (forall a, In a l -> f a = g a) -> collect l f = collect l g.
Proof.
induction l as [| a l IH]; intros H; cbn; [reflexivity |].
rewrite (H a (or_introl eq_refl)), IH; [reflexivity |].
intros a' Ha'; apply H; right; exact Ha'.
Qed.

Lemma index_firstn {A : Type} (l : list A) (n i : nat) :
  (i < n)%nat -> index (firstn n l) i = index l i.
Proof.
intros H; unfold index; rewrite nth_error_firstn.
destruct (Nat.ltb_spec i n); [reflexivity | lia].
Qed.

Lemma index_Raise {A : Type} (l : list A) (i : nat) (x : exn) :
  index l i = Raise x -> x = IndexError /\ (List.length l <= i)%nat.
Proof.
unfold index; destruct (nth_error l i) eqn:E; intros H; [discriminate H |].
injection H as <-; split; [reflexivity | apply nth_error_None, E].
Qed.

Lemma init_diffs_Raise (x : exn) :
  init_diffs JOINT_LIMITS = Raise x -> x = IndexError.
Proof.
intros H; apply collect_Raise in H; destruct H as (i & _ & H).
cbn [bind result_Monad] in H.
destruct (index JOINT_LIMITS i) as [lim |] eqn:E.
- cbn in H; discriminate H.
- injection H as <-; apply (index_Raise _ _ E).
Qed.

Lemma denormalize_Raise (self : env) (actions : list Q) (x : exn) :
  _denormalize JOINT_LIMITS self actions = Raise x -> x = IndexError.
Proof.
intros H; apply collect_Raise in H; destruct H as (i & _ & H).
cbn [bind result_Monad] in H.
destruct (index actions i) as [a |] eqn:Ea;
  [| injection H as <-; apply (index_Raise _ _ Ea)].
destruct (index (diffs self) i) as [d |] eqn:Ed;
  [| injection H as <-; apply (index_Raise _ _ Ed)].
destruct (index JOINT_LIMITS i) as [lim |] eqn:El;
  [discriminate H | injection H as <-; apply (index_Raise _ _ El)].
Qed.

Lemma denormalize_short (self : env) (v : list Q) :
  (List.length v < 6)%nat ->
  _denormalize JOINT_LIMITS self v = Raise IndexError.
Proof.
intros L.
destruct (_denormalize JOINT_LIMITS self v) as [t | x] eqn:E.
- exfalso; destruct (denormalize_nth _ _ E) as [_ Ht].
  destruct (Ht 5%nat) as (x & _ & _ & Hx & _); [lia |].
  assert (5 < List.length v)%nat by (apply nth_error_Some; congruence).
  lia.
- rewrite (denormalize_Raise _ _ E); reflexivity.
Qed.

Lemma startEnv_quiet (hl : bool) :
  sim_steps (fst (fst (_startEnv hl ([], ([], []))))) = 0%nat /\
  forall m v,
    ~ In (set_position_target m v) (fst (fst (_startEnv hl ([], ([], []))))).
Proof.
split; [reflexivity |].
intros m v H; cbn in H.
repeat (destruct H as [H | H]; [discriminate H |]); exact H.
Qed.

(** X1. Whenever the constructor returns, the joint-limit table has at
    least six rows; there are six range widths, [max - min] row by row
    (rows past the sixth are not read); the counter is -1; [done] and
    [observation] do not exist yet; the motor handles are those of the
    two arms; and the simulator has been asked neither to move a motor
    nor to step.  With fewer than six rows the constructor never returns
    an instance.  (A failure of the simulator binding also aborts the
    construction; the statement says what holds when the constructor
    returns, not when it does.) *)
Theorem init_returns_only_with_six_limits (hl : bool) (g : Rng) :
  (forall e : env,
      __init__ JOINT_LIMITS Image hl g = Ok e ->
      (6 <= List.length JOINT_LIMITS)%nat /\
      List.length (diffs e) = 6%nat /\
      (forall i lim, (i < 6)%nat -> nth_error JOINT_LIMITS i = Some lim ->
                     nth_error (diffs e) i = Some (snd lim - fst lim)%Q) /\
      frames_after_hit e = (-1)%Z /\
      done e = None /\ observation e = None /\
      motors e = (robot_motors 0, robot_motors 1) /\
      sim_steps (venv e) = 0%nat /\
      (forall m v, ~ In (set_position_target m v) (venv e))) /\
  ((List.length JOINT_LIMITS < 6)%nat ->
   forall e : env, __init__ JOINT_LIMITS Image hl g <> Ok e).
Proof.
assert (U : __init__ JOINT_LIMITS Image hl g =
            match init_diffs JOINT_LIMITS with
            | Ok ds =>
                Ok (mkEnv hl (fst (fst (_startEnv hl ([], ([], [])))))
                          (robot_motors 0, robot_motors 1) "sword_hit"
                          (Build_SimObject "cam" false) ds (-1) None None g)
            | Raise x => Raise x
            end).
{ unfold __init__; destruct (startEnv_run hl) as [log E]; rewrite E.
  fold (init_diffs JOINT_LIMITS).
  destruct (init_diffs JOINT_LIMITS); reflexivity. }
assert (S : forall ds, init_diffs JOINT_LIMITS = Ok ds ->
                       (6 <= List.length JOINT_LIMITS)%nat).
{ intros ds E.
  destruct (@init_diffs_nth ds E 5%nat) as (lim & Hlim & _); [lia |].
  assert (5 < List.length JOINT_LIMITS)%nat
    by (apply nth_error_Some; congruence).
  lia. }
rewrite U; clear U; split.
- intros e H.
  destruct (init_diffs JOINT_LIMITS) as [ds | x] eqn:E; [| discriminate H].
  injection H as <-; cbn [diffs frames_after_hit venv done observation motors].
  refine (conj (S ds eq_refl)
            (conj (init_diffs_length E)
               (conj _ (conj eq_refl (conj eq_refl (conj eq_refl
                  (conj eq_refl _))))))).
  + intros i lim Hi Hlim.
    destruct (init_diffs_nth E Hi) as (lim' & Hlim' & Hd).
    congruence.
  + exact (startEnv_quiet hl).
- intros L e H.
  destruct (init_diffs JOINT_LIMITS) as [ds | x] eqn:E; [| discriminate H].
  specialize (S ds eq_refl); lia.
Qed.

(** X2. [_normalize] and [_denormalize] read the first six entries of
    their argument and nothing else: entries past the sixth do not
    change the result, and an argument with fewer than six entries makes
    them raise. *)
Theorem normalize_reads_six_entries (self : env) (v : list Q) :
  _normalize JOINT_LIMITS self (firstn 6 v) = _normalize JOINT_LIMITS self v /\
  _denormalize JOINT_LIMITS self (firstn 6 v) =
    _denormalize JOINT_LIMITS self v /\
  ((List.length v < 6)%nat ->
   (exists x, _normalize JOINT_LIMITS self v = Raise x) /\
   _denormalize JOINT_LIMITS self v = Raise IndexError).
Proof.
refine (conj _ (conj _ _)).
- apply collect_ext; intros i Hi; apply range_In in Hi.
  rewrite (index_firstn v Hi); reflexivity.
- apply collect_ext; intros i Hi; apply range_In in Hi.
  rewrite (index_firstn v Hi); reflexivity.
- intros L; split.
  + destruct (_normalize JOINT_LIMITS self v) as [n | x] eqn:E; [| eauto].
    exfalso; destruct (normalize_nth _ _ E) as [_ Hn].
    destruct (Hn 5%nat) as (x & _ & _ & Hx & _); [lia |].
    assert (5 < List.length v)%nat by (apply nth_error_Some; congruence).
    lia.
  + apply denormalize_short, L.
Qed.

(** X3. A step call with an action of fewer than six components raises
    an index error before anything else happens: no call reaches the
    simulator and the instance is exactly as it was. *)
Theorem step_short_action_raises (actions : list Q) (rd : Readings Image)
        (e : env) :
  (List.length actions < 6)%nat ->
  _step JOINT_LIMITS actions rd e = (e, Raise IndexError).
Proof.
intros L.
assert (E : _denormalize JOINT_LIMITS e (clip actions (-1) 1)
            = Raise IndexError).
{ apply denormalize_short; rewrite clip_length; exact L. }
unfold _step; cbn [bind M_Monad gets lift]; rewrite E; reflexivity.
Qed.

(** *** The clamp and the affine maps, continued *)

Lemma clip1_idempotent (x : Q) :
  Qmin (Qmax (Qmin (Qmax x (-1)) 1) (-1)) 1 = Qmin (Qmax x (-1)) 1.
Proof.
cbv [Qmin Qmax GenericMinMax.gmin GenericMinMax.gmax].
destruct (x ?= -1)%Q eqn:E1; try reflexivity;
  destruct (x ?= 1)%Q eqn:E2; try reflexivity;
  rewrite ?E1, ?E2; reflexivity.
Qed.

Lemma clip1_in_box (x : Q) :
  (-1 <= x <= 1)%Q -> Qmin (Qmax x (-1)) 1 = x.
Proof.
intros [Hlo Hhi].
cbv [Qmin Qmax GenericMinMax.gmin GenericMinMax.gmax].
destruct (x ?= -1)%Q eqn:E1.
- destruct (x ?= 1)%Q eqn:E2; try reflexivity.
  apply Qgt_alt in E2; lra.
- apply Qlt_alt in E1; lra.
- destruct (x ?= 1)%Q eqn:E2; try reflexivity.
  apply Qgt_alt in E2; lra.
Qed.

Lemma clip1_high (x : Q) : (1 <= x)%Q -> (Qmin (Qmax x (-1)) 1 == 1)%Q.
Proof.
intros H.
rewrite Q.max_l by lra.
destruct (Qlt_le_dec 1 x); [rewrite Q.min_r by lra; reflexivity |].
rewrite Q.min_l by lra; lra.
Qed.

Lemma clip1_low (x : Q) : (x <= -1)%Q -> (Qmin (Qmax x (-1)) 1 == -1)%Q.
Proof.
intros H.
rewrite Q.max_r by lra.
rewrite Q.min_l by lra; reflexivity.
Qed.

(** X4. The other round trip: with a proper limit table, a six-element
    action can be denormalised and the result normalised, and every
    component comes back (as a rational number), whether or not it lies
    in [-1, 1]. *)
Theorem denormalize_normalize_roundtrip (self : env) (actions : list Q) :
  init_diffs JOINT_LIMITS = Ok (diffs self) ->
  limits_proper JOINT_LIMITS ->
  List.length actions = 6%nat ->
  exists t n,
    _denormalize JOINT_LIMITS self actions = Ok t /\
    _normalize JOINT_LIMITS self t = Ok n /\
    forall i a, nth_error actions i = Some a ->
                exists y, nth_error n i = Some y /\ (y == a)%Q.
Proof.
intros Hd P L.
destruct (@denormalize_total self actions Hd) as [t Et]; [lia |].
destruct (denormalize_nth _ _ Et) as [Lt Ht].
destruct (@normalize_total self t Hd P) as [n En]; [lia |].
destruct (normalize_nth _ _ En) as [_ Hn].
exists t, n; refine (conj Et (conj En _)).
intros i a Ha.
assert (Hi : (i < 6)%nat) by (rewrite <- L; apply nth_error_Some; congruence).
destruct (Ht i Hi) as (a' & lim & w & Ha' & Hlim & Hw & Hti).
destruct (Hn i Hi) as (x & lim' & w' & Hx & Hlim' & Hw' & _ & Hni).
destruct (init_diffs_nth Hd Hi) as (lim0 & Hlim0 & Hw0).
assert (a' = a) by congruence.
assert (lim' = lim) by congruence.
assert (lim0 = lim) by congruence.
subst a' lim' lim0.
assert (w = (snd lim - fst lim)%Q) by congruence.
assert (w' = (snd lim - fst lim)%Q) by congruence.
assert (x = ((a + 1) / 2 * w + fst lim)%Q) by congruence.
subst w w' x.
specialize (P i lim Hi Hlim).
eexists; split; [exact Hni |].
field; lra.
Qed.

(** X5. The clamp leaves an action that is already in the box exactly
    as it is, clamping twice is clamping once, and a step call treats an
    action and its clamped version alike. *)
Theorem step_sees_the_clamped_action (actions : list Q) :
  ((forall x, In x actions -> (-1 <= x <= 1)%Q) ->
   clip actions (-1) 1 = actions) /\
  clip (clip actions (-1) 1) (-1) 1 = clip actions (-1) 1 /\
  forall (rd : Readings Image) (e : env),
    _step JOINT_LIMITS (clip actions (-1) 1) rd e =
    _step JOINT_LIMITS actions rd e.
Proof.
assert (I : clip (clip actions (-1) 1) (-1) 1 = clip actions (-1) 1).
{ unfold clip; rewrite map_map; apply map_ext; intros x.
  apply clip1_idempotent. }
refine (conj _ (conj I _)).
- intros H; unfold clip.
  rewrite <- (map_id actions) at 2.
  apply map_ext_in; intros x Hx; apply clip1_in_box, H, Hx.
- intros rd e; unfold _step; cbv zeta; rewrite I; reflexivity.
Qed.

(** X6. Saturation: in the target a step call computes, a component of
    the action at or above 1 gives the joint's maximum, one at or below
    -1 gives the joint's minimum, and one in between gives
    [(a + 1) / 2 * (max - min) + min]. *)
Theorem clamped_action_saturates (self : env) (actions t : list Q)
        (i : nat) (a : Q) (lim : Q * Q) :
  init_diffs JOINT_LIMITS = Ok (diffs self) ->
  _denormalize JOINT_LIMITS self (clip actions (-1) 1) = Ok t ->
  (i < 6)%nat ->
  nth_error actions i = Some a ->
  nth_error JOINT_LIMITS i = Some lim ->
  exists v,
    nth_error t i = Some v /\
    ((1 <= a)%Q -> (v == snd lim)%Q) /\
    ((a <= -1)%Q -> (v == fst lim)%Q) /\
    ((-1 <= a <= 1)%Q ->
     (v == (a + 1) / 2 * (snd lim - fst lim) + fst lim)%Q).
Proof.
intros Hd Et Hi Ha Hlim.
destruct (denormalize_nth _ _ Et) as [_ Ht].
destruct (Ht i Hi) as (c & lim' & w & Hc & Hlim' & Hw & Hti).
destruct (init_diffs_nth Hd Hi) as (lim0 & Hlim0 & Hw0).
assert (lim' = lim) by congruence.
assert (lim0 = lim) by congruence.
subst lim' lim0.
assert (w = (snd lim - fst lim)%Q) by congruence; subst w.
unfold clip in Hc; rewrite nth_error_map, Ha in Hc; cbn in Hc.
injection Hc as <-.
eexists; split; [exact Hti |].
refine (conj _ (conj _ _)); intros H.
- rewrite (clip1_high H); field.
- rewrite (clip1_low H); field.
- rewrite (clip1_in_box H); reflexivity.
Qed.

(** X10. [_gotoPos] with a pose of fewer than six values commands the
    motors of arm A that have a value, in order, and then raises an
    index error: those motors keep the new target, the others keep the
    target they had. *)
Theorem gotoPos_short_pose (pos : list Q) (e : env) :
  fst (motors e) = robot_motors 0 ->
  (List.length pos < 6)%nat ->
  snd (_gotoPos pos e) = Raise IndexError /\
  issued e (fst (_gotoPos pos e)) (target_calls (robot_motors 0) pos) /\
  forall i m,
    nth_error (robot_motors 0) i = Some m ->
    commanded m (venv (fst (_gotoPos pos e))) =
    match nth_error pos i with
    | Some v => Some v
    | None => commanded m (venv e)
    end.
Proof.
intros Hm L.
rewrite (gotoPos_run pos e Hm); cbn [fst snd venv set_venv].
refine (conj _ (conj eq_refl _)).
- destruct (Nat.leb_spec 6 (List.length pos)); [lia | reflexivity].
- intros i m Hi.
  destruct pos as [| p0 [| p1 [| p2 [| p3 [| p4 [| p5 pos]]]]]];
    try (cbn in L; lia);
    destruct i as [| [| [| [| [| [| i]]]]]]; cbn in Hi;
    try (destruct i; discriminate Hi);
    injection Hi as <-; reflexivity.
Qed.

(** *** What reaches the simulator, and what comes back *)

Lemma reset_run (rd : Readings Image) (e : env) :
  constructed JOINT_LIMITS e ->
  _reset JOINT_LIMITS np_random_randint rd e =
  let noise := fst (draws np_random_randint RANDOM_NOISE (np_random e)) in
  let g' := snd (draws np_random_randint RANDOM_NOISE (np_random e)) in
  match _normalize JOINT_LIMITS e (angles_read rd e) with
  | Ok n =>
      (set_frames_after_hit (-1)
         (set_observation (camera_image rd, n ++ velocities_read rd e)
            (set_venv (observe_calls e ++ restPos_calls noise ++ venv e)
               (set_np_random g' (set_done false e)))),
       Ok (camera_image rd, n ++ velocities_read rd e))
  | Raise x =>
      (set_venv (joint_queries (fst (motors e)) ++ restPos_calls noise
                   ++ venv e)
         (set_np_random g' (set_done false e)),
       Raise x)
  end.
Proof.
intros C; cbv zeta.
unfold _reset; cbn [bind M_Monad].
rewrite (restPos_run C).
set (e1 := set_np_random _ _).
rewrite (self_observe_run rd e1).
change (_normalize JOINT_LIMITS e1 (angles_read rd e1))
  with (_normalize JOINT_LIMITS e (angles_read rd e)).
destruct (_normalize JOINT_LIMITS e (angles_read rd e)) as [n | x];
  subst e1; destruct e; reflexivity.
Qed.


(** X7. A step call on a constructed instance (six-element action,
    proper limit table) commands every motor of arm A: after the call
    the target of motor [i] is the [i]-th denormalised component of the
    clamped action.  The simulation advances by exactly one step during
    the call. *)
Theorem step_commands_arm_A (actions : list Q) (rd : Readings Image)
        (e : env) :
  constructed JOINT_LIMITS e ->
  limits_proper JOINT_LIMITS ->
  List.length actions = 6%nat ->
  exists t new,
    _denormalize JOINT_LIMITS e (clip actions (-1) 1) = Ok t /\
    issued e (fst (_step JOINT_LIMITS actions rd e)) new /\
    sim_steps new = 1%nat /\
    commanded_pose (fst (motors e))
                   (venv (fst (_step JOINT_LIMITS actions rd e))) =
    map Some t.
Proof.
intros C P L.
pose proof C as (Cm & Cc & Cd).
destruct (@denormalize_total e (clip actions (-1) 1) Cd)
  as [t Et]; [rewrite clip_length; lia |].
destruct (@normalize_total e (angles_read rd e) Cd P) as [n En].
{ unfold angles_read; rewrite length_map, Cm; cbn; lia. }
assert (Hm : fst (motors e) = robot_motors 0) by (rewrite Cm; reflexivity).
rewrite (step_run actions rd e Hm Et En).
cbn [fst venv set_frames_after_hit set_observation set_venv].
assert (Lt : List.length t = 6%nat) by (apply (denormalize_nth _ _ Et)).
exists t, (step_calls e t); refine (conj Et (conj eq_refl _)).
unfold step_calls, observe_calls; rewrite Hm, Cc.
destruct t as [| t0 [| t1 [| t2 [| t3 [| t4 [| t5 [| ? ?]]]]]]];
  try discriminate Lt.
split; reflexivity.
Qed.


(** X9. A reset of a constructed instance (proper limit table) stops the
    simulation and restarts it in synchronous mode before anything else,
    commands every motor of arm A to its rest position, advances the
    simulation by exactly fifteen steps, and never asks the collision
    sensor; the generator has then made its six draws. *)
Theorem reset_call_sequence (rd : Readings Image) (e : env) :
  constructed JOINT_LIMITS e ->
  limits_proper JOINT_LIMITS ->
  exists new mid,
    issued e (fst (_reset JOINT_LIMITS np_random_randint rd e)) new /\
    new = mid ++ [start_simulation true; stop_simulation] /\
    sim_steps new = 15%nat /\
    ~ In is_colliding new /\
    commanded_pose (fst (motors e))
      (venv (fst (_reset JOINT_LIMITS np_random_randint rd e))) =
      map (fun p => Some (inject_Z p)) REST_POS /\
    np_random (fst (_reset JOINT_LIMITS np_random_randint rd e)) =
      snd (draws np_random_randint RANDOM_NOISE (np_random e)).
Proof.
intros C P.
pose proof C as (Cm & Cc & Cd).
destruct (@normalize_total e (angles_read rd e) Cd P) as [n En].
{ unfold angles_read; rewrite length_map, Cm; cbn; lia. }
rewrite (reset_run rd C); cbv zeta; rewrite En.
cbn [fst venv np_random set_frames_after_hit set_observation set_venv
     set_np_random].
pose proof (draws_length RANDOM_NOISE (np_random e)) as Ln.
set (noise := fst (draws np_random_randint RANDOM_NOISE (np_random e))) in *.
destruct noise as [| n0 [| n1 [| n2 [| n3 [| n4 [| n5 [| ? ?]]]]]]];
  try discriminate Ln.
unfold observe_calls; rewrite Cm, Cc; cbn [fst].
eexists; eexists; split; [apply app_assoc |].
refine (conj _ (conj _ (conj _ (conj _ _)))).
5: reflexivity.
4: reflexivity.
2: reflexivity.
- cbv [restPos_calls]; rewrite !app_assoc; reflexivity.
- intros H; cbn in H.
  repeat (destruct H as [H | H]; [discriminate H |]); exact H.
Qed.

(** *** Episodes and the reward rule *)

Lemma run_steps_steady (inputs : list (list Q * Readings Image)) :
  forall e : env, steady e (fst (run_steps JOINT_LIMITS inputs e)).
Proof.
induction inputs as [| [a rd] inputs IH]; intros e; cbn [run_steps fst snd].
- apply quiet_steady, quiet_refl.
- eapply steady_trans; [apply (step_steady a rd e) | apply IH].
Qed.

Lemma run_steps_rule (inputs : list (list Q * Readings Image)) :
  limits_proper JOINT_LIMITS ->
  Forall (fun ar => List.length (fst ar) = 6%nat) inputs ->
  forall (e : env) (d : bool),
    constructed JOINT_LIMITS e -> done e = Some d ->
    rewards (snd (run_steps JOINT_LIMITS inputs e)) =
    map Some (rule_rewards (map (fun ar => colliding (snd ar)) inputs)
                           (frames_after_hit e)).
Proof.
intros P; induction 1 as [| [a rd] inputs L _ IH]; intros e d C D;
  cbn [run_steps fst snd map rule_rewards rewards]; [reflexivity |].
destruct (@step_outcome a rd e C P L) as (e' & n & _ & H & Hf).
rewrite H, D; cbn [fst snd]; f_equal.
rewrite <- Hf; apply (IH e' d).
- pose proof (step_steady a rd e) as Hs; rewrite H in Hs.
  exact (constructed_steady Hs C).
- pose proof (step_steady a rd e) as Hs; rewrite H in Hs.
  rewrite <- D; apply Hs.
Qed.

Lemma reward_potential (hit : bool) (f : Z) :
  counter_ok f ->
  (0 <= reward_of hit f)%Z /\
  (4 * reward_of hit f + cooling_left f
   <= 1 + cooling_left (next_counter hit f))%Z.
Proof.
unfold counter_ok, INVULNERABILITY_AFTER_HIT; intros H.
assert (E : (f = -1 \/ f = 0 \/ f = 1 \/ f = 2)%Z) by lia.
destruct E as [-> | [-> | [-> | ->]]]; destruct hit; split; cbv; discriminate.
Qed.

(** X11. Rewards cannot come faster than one every four step calls: in
    any episode of [n] calls, started from any admissible counter and
    whatever the actions, the simulator's answers and the calls that
    raise, four times the total reward is at most [n + 3]; the bound
    tightens by the number of calls for which the counter still
    suppresses the reward. *)
Theorem reward_rate_bound (inputs : list (list Q * Readings Image)) :
  forall e : env,
    counter_ok (frames_after_hit e) ->
    (4 * total_reward (rewards (snd (run_steps JOINT_LIMITS inputs e)))
     + cooling_left (frames_after_hit e)
     <= Z.of_nat (List.length inputs) + 3)%Z.
Proof.
induction inputs as [| [a rd] inputs IH]; intros e K;
  cbn [run_steps fst snd rewards map total_reward List.length].
- unfold counter_ok, INVULNERABILITY_AFTER_HIT in K.
  assert (E : (frames_after_hit e = -1 \/ frames_after_hit e = 0 \/
               frames_after_hit e = 1 \/ frames_after_hit e = 2)%Z) by lia.
  destruct E as [-> | [-> | [-> | ->]]]; cbv; discriminate.
- pose proof (step_counter_ok a rd e K) as K'.
  specialize (IH _ K').
  fold (rewards (snd (run_steps JOINT_LIMITS inputs
                        (fst (_step JOINT_LIMITS a rd e))))).
  destruct (reward_potential (colliding rd) K) as [R0 R1].
  pose proof (step_spec a rd e) as (_ & Hf & Hr & _); cbv beta in Hr.
  rewrite Nat2Z.inj_succ.
  destruct (snd (_step JOINT_LIMITS a rd e)) as [[[[obs reward] d] info] | x].
  + destruct (Hr obs reward d info eq_refl) as (Hn & -> & _).
    cbn [total_reward]; rewrite Hn in IH; lia.
  + cbn [total_reward].
    destruct Hf as [Hf | Hf]; rewrite Hf in IH; lia.
Qed.

(** X12. On a constructed instance that has been reset (proper limit
    table, six-element actions) every call of an episode returns, and
    the rewards are those of the reward rule run over the collision
    flags alone: two episodes with the same flags and the same starting
    counter earn the same rewards, whatever their actions and whatever
    else the simulator reports. *)
Theorem rewards_depend_on_collisions_only
        (inputs1 inputs2 : list (list Q * Readings Image))
        (e1 e2 : env) (d1 d2 : bool) :
  limits_proper JOINT_LIMITS ->
  constructed JOINT_LIMITS e1 -> constructed JOINT_LIMITS e2 ->
  done e1 = Some d1 -> done e2 = Some d2 ->
  Forall (fun ar => List.length (fst ar) = 6%nat) inputs1 ->
  Forall (fun ar => List.length (fst ar) = 6%nat) inputs2 ->
  map (fun ar => colliding (snd ar)) inputs1 =
    map (fun ar => colliding (snd ar)) inputs2 ->
  frames_after_hit e1 = frames_after_hit e2 ->
  rewards (snd (run_steps JOINT_LIMITS inputs1 e1)) =
    map Some (rule_rewards (map (fun ar => colliding (snd ar)) inputs1)
                           (frames_after_hit e1)) /\
  rewards (snd (run_steps JOINT_LIMITS inputs1 e1)) =
    rewards (snd (run_steps JOINT_LIMITS inputs2 e2)).
Proof.
intros P C1 C2 D1 D2 L1 L2 Hh Hf.
rewrite (run_steps_rule P L1 C1 D1), (run_steps_rule P L2 C2 D2), Hh, Hf.
split; reflexivity.
Qed.

Lemma rule_rewards_hold (k : nat) :
  rule_rewards (repeat true (4 * k)) (-1) =
  List.concat (repeat [1; 0; 0; 0]%Z k).
Proof.
induction k as [| k IH]; [reflexivity |].
replace (4 * Datatypes.S k)%nat
  with (Datatypes.S (Datatypes.S (Datatypes.S (Datatypes.S (4 * k))))) by lia.
cbn [repeat rule_rewards List.concat app].
change (next_counter true (-1)) with 0%Z.
change (next_counter true 0) with 1%Z.
change (next_counter true 1) with 2%Z.
change (next_counter true 2) with (-1)%Z.
rewrite IH; reflexivity.
Qed.

Lemma total_reward_hold (k : nat) :
  total_reward (map Some (List.concat (repeat [1; 0; 0; 0]%Z k))) = Z.of_nat k.
Proof.
induction k as [| k IH]; [reflexivity |].
cbn [repeat List.concat app map total_reward]; rewrite IH; lia.
Qed.

(** X13. Keeping the swords in contact scores once every four step
    calls: from a counter of -1, in an episode of [4 * k] calls that all
    report a collision, the rewards are 1, 0, 0, 0 repeated [k] times,
    so the total is [k] and the bound of the previous property is
    reached. *)
Theorem holding_contact_scores_every_fourth_step
        (inputs : list (list Q * Readings Image)) (e : env) (d : bool)
        (k : nat) :
  limits_proper JOINT_LIMITS ->
  constructed JOINT_LIMITS e -> done e = Some d ->
  frames_after_hit e = (-1)%Z ->
  Forall (fun ar => List.length (fst ar) = 6%nat /\
                    colliding (snd ar) = true) inputs ->
  List.length inputs = (4 * k)%nat ->
  rewards (snd (run_steps JOINT_LIMITS inputs e)) =
    map Some (List.concat (repeat [1; 0; 0; 0]%Z k)) /\
  total_reward (rewards (snd (run_steps JOINT_LIMITS inputs e))) =
    Z.of_nat k.
Proof.
intros P C D F A L.
assert (L6 : Forall (fun ar => List.length (fst ar) = 6%nat) inputs)
  by (eapply Forall_impl; [| exact A]; intros ar [H _]; exact H).
assert (Hh : map (fun ar => colliding (snd ar)) inputs =
             repeat true (4 * k)).
{ rewrite <- L; clear L L6.
  induction A as [| ar inputs [_ Hc] _ IH]; cbn; [reflexivity |].
  rewrite Hc, IH; reflexivity. }
rewrite (run_steps_rule P L6 C D), Hh, F, rule_rewards_hold.
split; [reflexivity | apply total_reward_hold].
Qed.

(** *** The stance of arm B and the generator *)

Lemma reset_arm_B_pose (rd : Readings Image) (e : env) :
  constructed JOINT_LIMITS e ->
  commanded_pose (snd (motors e))
    (venv (fst (_reset JOINT_LIMITS np_random_randint rd e))) =
  map (fun rn => Some (inject_Z (fst rn + snd rn)))
      (combine REST_POS
               (fst (draws np_random_randint RANDOM_NOISE (np_random e)))).
Proof.
intros C; pose proof C as (Cm & Cc & _).
rewrite (reset_run rd C); cbv zeta.
pose proof (draws_length RANDOM_NOISE (np_random e)) as Ln.
set (noise := fst (draws np_random_randint RANDOM_NOISE (np_random e))) in *.
destruct noise as [| n0 [| n1 [| n2 [| n3 [| n4 [| n5 [| ? ?]]]]]]];
  try discriminate Ln.
destruct (_normalize JOINT_LIMITS e (angles_read rd e));
  cbn [fst venv set_frames_after_hit set_observation set_venv];
  unfold observe_calls; rewrite Cm, ?Cc; reflexivity.
Qed.

(** X14. Step calls do not use the random generator, so they do not
    change the stance arm B takes at the next reset: after any episode,
    a reset commands arm B exactly as a reset made before the episode
    would have. *)
Theorem steps_do_not_change_next_stance
        (inputs : list (list Q * Readings Image))
        (rd rd' : Readings Image) (e : env) :
  constructed JOINT_LIMITS e ->
  np_random (fst (run_steps JOINT_LIMITS inputs e)) = np_random e /\
  commanded_pose (snd (motors e))
    (venv (fst (_reset JOINT_LIMITS np_random_randint rd
                       (fst (run_steps JOINT_LIMITS inputs e))))) =
  commanded_pose (snd (motors e))
    (venv (fst (_reset JOINT_LIMITS np_random_randint rd' e))).
Proof.
intros C.
pose proof (run_steps_steady inputs e) as Hs.
assert (G : np_random (fst (run_steps JOINT_LIMITS inputs e)) = np_random e)
  by apply Hs.
assert (Hm : motors (fst (run_steps JOINT_LIMITS inputs e)) = motors e)
  by apply Hs.
split; [exact G |].
rewrite <- Hm at 1.
rewrite (reset_arm_B_pose rd (constructed_steady Hs C)), G.
rewrite (reset_arm_B_pose rd' C); reflexivity.
Qed.

(** X15. Seeding with an integer of [0, 2**32 - 1] makes the stance
    reproducible: [_seed] returns, and the next reset commands arm B the
    rest pose plus the six draws of the freshly seeded generator, the
    same on any two constructed instances whatever their history, their
    generator state and what the simulator reports.  An integer outside
    that range makes [_seed] raise a value error and changes nothing.
    (Nothing is said of [_seed(None)], which takes its state from the
    operating system.) *)
Theorem seed_fixes_next_stance (s : Z) (g1 g2 : Rng)
        (rd1 rd2 : Readings Image) (e1 e2 : env) :
  constructed JOINT_LIMITS e1 -> constructed JOINT_LIMITS e2 ->
  ((0 <= s < 2 ^ 32)%Z ->
   snd (_seed np_random_seed (Some s) g1 e1) = Ok tt /\
   commanded_pose (robot_motors 1)
     (venv (fst (_reset JOINT_LIMITS np_random_randint rd1
                        (fst (_seed np_random_seed (Some s) g1 e1))))) =
     map (fun rn => Some (inject_Z (fst rn + snd rn)))
         (combine REST_POS
                  (fst (draws np_random_randint RANDOM_NOISE
                              (np_random_seed (Some s))))) /\
   commanded_pose (robot_motors 1)
     (venv (fst (_reset JOINT_LIMITS np_random_randint rd1
                        (fst (_seed np_random_seed (Some s) g1 e1))))) =
   commanded_pose (robot_motors 1)
     (venv (fst (_reset JOINT_LIMITS np_random_randint rd2
                        (fst (_seed np_random_seed (Some s) g2 e2)))))) /\
  (~ (0 <= s < 2 ^ 32)%Z ->
   _seed np_random_seed (Some s) g1 e1 = (e1, Raise ValueError)).
Proof.
intros C1 C2; split; intros R.
- assert (B : ((0 <=? s) && (s <? 2 ^ 32))%Z = true).
  { apply andb_true_iff; split; [apply Z.leb_le | apply Z.ltb_lt]; lia. }
  assert (S : forall g rd (e : env),
            constructed JOINT_LIMITS e ->
            commanded_pose (robot_motors 1)
              (venv (fst (_reset JOINT_LIMITS np_random_randint rd
                                 (fst (_seed np_random_seed (Some s) g e))))) =
            map (fun rn => Some (inject_Z (fst rn + snd rn)))
                (combine REST_POS
                         (fst (draws np_random_randint RANDOM_NOISE
                                     (np_random_seed (Some s)))))).
  { intros g rd e C.
    unfold _seed; rewrite B.
    assert (C' : constructed JOINT_LIMITS
                   (set_np_random (np_random_seed (Some s)) e)) by exact C.
    pose proof (reset_arm_B_pose rd C') as H.
    destruct C as (Cm & _).
    change (motors (set_np_random (np_random_seed (Some s)) e))
      with (motors e) in H.
    rewrite Cm in H; exact H. }
  refine (conj _ (conj (S g1 rd1 e1 C1) _)).
  + unfold _seed; rewrite B; reflexivity.
  + rewrite (S g1 rd1 e1 C1), (S g2 rd2 e2 C2); reflexivity.
- assert (B : ((0 <=? s) && (s <? 2 ^ 32))%Z = false).
  { apply andb_false_iff.
    destruct (Z.leb_spec 0 s); [| left; reflexivity].
    destruct (Z.ltb_spec s (2 ^ 32)); [| right; reflexivity].
    exfalso; apply R; lia. }
  unfold _seed; rewrite B; reflexivity.
Qed.

(** *** An action that holds a NaN *)

Lemma enumerate_nth {A : Type} (l : list A) (i : nat) (x : A) :
  nth_error l i = Some x -> nth_error (enumerate l) i = Some (i, x).
Proof.
unfold enumerate.
assert (G : forall s j, nth_error l j = Some x ->
              nth_error (combine (seq s (List.length l)) l) j
              = Some ((s + j)%nat, x)).
{ induction l as [| a l IH]; intros s [| j] H; cbn in H |- *;
    try discriminate H.
  - injection H as <-; rewrite Nat.add_0_r; reflexivity.
  - rewrite (IH (Datatypes.S s) j H); f_equal; f_equal; lia. }
intros H; exact (G 0%nat i H).
Qed.

Lemma collect_map {A B C : Type} (f : A -> result B) (g : A -> result C)
      (h : B -> C) (l : list A) :
  (forall a, In a l ->
             g a = match f a with Ok y => Ok (h y) | Raise x => Raise x end) ->
  collect l g =
  match collect l f with Ok ys => Ok (map h ys) | Raise x => Raise x end.
Proof.
induction l as [| a l IH]; intros H; cbn; [reflexivity |].
rewrite (H a (or_introl eq_refl)).
destruct (f a) as [y | x]; [| reflexivity].
rewrite IH by (intros a' Ha'; apply H; right; exact Ha').
destruct (collect l f); reflexivity.
Qed.

(** On actions that hold numbers only, the embedding with NaN computes
    what [clip] and [_denormalize] compute. *)
Lemma nan_free_agrees (self : env) (actions : list Q) :
  WithNaN._denormalize JOINT_LIMITS self
    (WithNaN.clip (map WithNaN.Num actions) (-1) 1) =
  match _denormalize JOINT_LIMITS self (clip actions (-1) 1) with
  | Ok t => Ok (map WithNaN.Num t)
  | Raise x => Raise x
  end.
Proof.
assert (E : WithNaN.clip (map WithNaN.Num actions) (-1) 1 =
            map WithNaN.Num (clip actions (-1) 1)).
{ unfold WithNaN.clip, clip; rewrite !map_map; reflexivity. }
rewrite E; apply collect_map; intros i _.
unfold index; rewrite nth_error_map.
destruct (nth_error (clip actions (-1) 1) i) as [a |]; [| reflexivity].
cbn [option_map bind result_Monad].
destruct (nth_error (diffs self) i) as [d |]; [| reflexivity].
destruct (nth_error JOINT_LIMITS i) as [lim |]; reflexivity.
Qed.

(** C4 (the code does otherwise on an action that holds a NaN).  The
    clamp of [_step] lets a NaN through: for a six-element action whose
    component [i] is NaN, on a constructed instance, the targets are
    computed without any exception and the motor [i] of arm A is sent
    the target NaN, which lies within no limits. *)
Theorem nan_action_reaches_simulator (self : env)
        (actions : list WithNaN.fnum) (i : nat) :
  constructed JOINT_LIMITS self ->
  List.length actions = 6%nat ->
  nth_error actions i = Some WithNaN.NaN ->
  exists targets m,
    WithNaN.step_targets JOINT_LIMITS self actions = Ok targets /\
    List.length targets = 6%nat /\
    nth_error (fst (motors self)) i = Some m /\
    nth_error targets i = Some (m, WithNaN.NaN) /\
    forall lim, ~ WithNaN.within lim WithNaN.NaN.
Proof.
intros (Cm & _ & Cd) L Hi.
assert (Hi6 : (i < 6)%nat) by (rewrite <- L; apply nth_error_Some; congruence).
unfold WithNaN.step_targets; cbv zeta.
set (clipped := WithNaN.clip actions (-1) 1).
assert (Lc : List.length clipped = 6%nat)
  by (unfold clipped, WithNaN.clip; rewrite length_map; exact L).
assert (Hc : nth_error clipped i = Some WithNaN.NaN)
  by (unfold clipped, WithNaN.clip; rewrite nth_error_map, Hi; reflexivity).
assert (T : exists t, WithNaN._denormalize JOINT_LIMITS self clipped = Ok t).
{ apply collect_total; intros j Hj; apply range_In in Hj.
  destruct (@index_lt _ clipped j) as [a ->]; [lia |].
  destruct (init_diffs_nth Cd Hj) as (lim & Hlim & Hd).
  unfold index; rewrite Hlim, Hd; cbn; eauto. }
destruct T as [t Et].
rewrite Et; cbn [bind result_Monad].
destruct (collect_nth _ _ Et) as [Lt Ht].
change (List.length (range 6)) with 6%nat in Lt.
destruct (Ht i i (range_nth Hi6)) as (y & Hy & Hty).
assert (y = WithNaN.NaN).
{ unfold index in Hy; rewrite Hc in Hy; cbn [bind result_Monad] in Hy.
  destruct (nth_error (diffs self) i); [| discriminate Hy].
  destruct (nth_error JOINT_LIMITS i); [| discriminate Hy].
  cbn in Hy; injection Hy as <-; reflexivity. }
subst y.
rewrite Cm; cbn [fst].
destruct (nth_error (robot_motors 0) i) as [m |] eqn:Hm.
2:{ apply nth_error_None in Hm; cbn in Hm; lia. }
match goal with
| |- context [collect (enumerate (robot_motors 0)) ?f] =>
    destruct (collect_total f (enumerate (robot_motors 0))) as [targets Eg]
end.
{ intros [j mj] Hj; apply enumerate_In in Hj.
  assert (j < 6)%nat
    by (change 6%nat with (List.length (robot_motors 0));
        apply nth_error_Some; congruence).
  destruct (@index_lt _ t j) as [p Hp]; [rewrite Lt; lia |].
  cbn [fst snd bind result_Monad]; rewrite Hp; eauto. }
rewrite Eg.
destruct (collect_nth _ _ Eg) as [Lg Hg].
destruct (Hg i (i, m) (enumerate_nth _ _ Hm)) as (c & Hc' & Htc).
cbn [fst snd bind result_Monad] in Hc'.
unfold index in Hc'; rewrite Hty in Hc'; injection Hc' as <-.
exists targets, m.
refine (conj eq_refl (conj _ (conj eq_refl (conj Htc _)))).
- rewrite Lg; reflexivity.
- intros lim H; exact H.
Qed.

End Properties.

(** ** The sample instance, run *)

Module SampleRuns.

Import Sample.

Lemma randint_contract_ok : randint_contract randint.
Proof.
intros low high g H; unfold randint; cbn [fst].
pose proof (Z.mod_pos_bound g (high - low)); lia.
Qed.

Lemma limits_proper_ok : limits_proper JOINT_LIMITS.
Proof.
intros i lim Hi H.
do 6 (destruct i as [| i]; [injection H as <-; reflexivity |]).
lia.
Qed.

Lemma limits_ordered_ok : limits_ordered JOINT_LIMITS.
Proof.
intros i lim Hi H; apply Qlt_le_weak, (limits_proper_ok Hi H).
Qed.

Lemma fresh_init : __init__ JOINT_LIMITS unit true 7%Z = Ok fresh.
Proof. reflexivity. Qed.

Lemma fresh_constructed : constructed JOINT_LIMITS fresh.
Proof. repeat split. Qed.

Lemma ready_constructed : constructed JOINT_LIMITS ready.
Proof. repeat split. Qed.

Lemma just_hit_constructed : constructed JOINT_LIMITS just_hit.
Proof. repeat split. Qed.

(** The trace of the specification's example, on the code: the counter
    moves on the second colliding step. *)
Example trace_rewards :
  rewards (snd (run_steps JOINT_LIMITS trace_inputs ready)) =
  [Some 1; Some 0; Some 0; Some 0; Some 0; Some 1]%Z.
Proof. vm_compute; reflexivity. Qed.

Example trace_counters :
  counters JOINT_LIMITS trace_inputs ready = [0; 1; 2; -1; -1; 0]%Z.
Proof. vm_compute; reflexivity. Qed.

(** Holding the contact for five steps scores twice: the counter runs
    out while the swords still touch. *)
Example hold_scores_again :
  rewards (snd (run_steps JOINT_LIMITS hold_inputs ready)) =
  [Some 1; Some 0; Some 0; Some 0; Some 1]%Z.
Proof. vm_compute; reflexivity. Qed.

End SampleRuns.

(** ** The theorems at the sample instance *)

(** The counter of [Sample.just_hit] is 0; a colliding step moves it
    to 1. *)
Lemma colliding_while_cooling_advances_witness :
  colliding (Sample.readings (30 # 1) true) = true /\
  (0 <= frames_after_hit Sample.just_hit < INVULNERABILITY_AFTER_HIT)%Z /\
  snd (_getReward (Sample.readings (30 # 1) true) Sample.just_hit) = Ok 0%Z /\
  frames_after_hit
    (fst (_getReward (Sample.readings (30 # 1) true) Sample.just_hit)) =
    (if (frames_after_hit Sample.just_hit =? 2)%Z
     then -1 else frames_after_hit Sample.just_hit + 1)%Z /\
  frames_after_hit
    (fst (_getReward (Sample.readings (30 # 1) true) Sample.just_hit)) <>
  frames_after_hit Sample.just_hit.
Proof.
assert (F : frames_after_hit Sample.just_hit = 0%Z) by reflexivity.
assert (B : (0 <= frames_after_hit Sample.just_hit <
             INVULNERABILITY_AFTER_HIT)%Z)
  by (rewrite F; unfold INVULNERABILITY_AFTER_HIT; lia).
exact (conj eq_refl
         (conj B (colliding_while_cooling_advances
                    (Sample.readings (30 # 1) true) Sample.just_hit
                    eq_refl B))).
Defined.

Lemma counter_invariant_witness :
  In (frames_after_hit Sample.just_hit) [-1; 0; 1; 2]%Z /\
  frames_after_hit Sample.just_hit <> INVULNERABILITY_AFTER_HIT.
Proof.
apply (proj2 (proj2 (proj2
         (counter_invariant Sample.JOINT_LIMITS unit
                            Sample.seed Sample.randint)))).
unfold Sample.just_hit, Sample.ready.
apply reach_step, reach_reset.
apply (reach_init _ _ _ true 7%Z), SampleRuns.fresh_init.
Defined.

Lemma normalize_denormalize_roundtrip_witness :
  init_diffs Sample.JOINT_LIMITS = Ok (diffs Sample.fresh) /\
  limits_proper Sample.JOINT_LIMITS /\
  List.length Sample.a_pose = 6%nat /\
  exists n d,
    _normalize Sample.JOINT_LIMITS Sample.fresh Sample.a_pose = Ok n /\
    _denormalize Sample.JOINT_LIMITS Sample.fresh n = Ok d /\
    forall i x lim,
      (i < 6)%nat ->
      nth_error Sample.a_pose i = Some x ->
      nth_error Sample.JOINT_LIMITS i = Some lim ->
      (fst lim <= x <= snd lim)%Q ->
      (exists y, nth_error d i = Some y /\ (y == x)%Q) /\
      (exists z, nth_error n i = Some z /\ (-1 <= z <= 1)%Q).
Proof.
exact (conj eq_refl
         (conj SampleRuns.limits_proper_ok
            (conj eq_refl
               (@normalize_denormalize_roundtrip Sample.JOINT_LIMITS unit Z
                  Sample.fresh Sample.a_pose
                  eq_refl SampleRuns.limits_proper_ok eq_refl)))).
Defined.

Lemma step_targets_within_limits_witness :
  constructed Sample.JOINT_LIMITS Sample.ready /\
  limits_ordered Sample.JOINT_LIMITS /\
  List.length Sample.an_action = 6%nat /\
  (forall x, In x (clip Sample.an_action (-1) 1) -> (-1 <= x <= 1)%Q) /\
  exists t,
    _denormalize Sample.JOINT_LIMITS Sample.ready
                 (clip Sample.an_action (-1) 1) = Ok t /\
    (forall i, (i < 6)%nat ->
       exists v lim,
         nth_error t i = Some v /\
         nth_error Sample.JOINT_LIMITS i = Some lim /\
         (fst lim <= v <= snd lim)%Q) /\
    exists new,
      issued Sample.ready
             (fst (_step Sample.JOINT_LIMITS Sample.an_action
                         (Sample.readings (30 # 1) false) Sample.ready))
             new /\
      forall m v,
        In (set_position_target m v) new ->
        exists i lim,
          nth_error (fst (motors Sample.ready)) i = Some m /\
          nth_error t i = Some v /\
          nth_error Sample.JOINT_LIMITS i = Some lim /\
          (fst lim <= v <= snd lim)%Q.
Proof.
exact (conj SampleRuns.ready_constructed
         (conj SampleRuns.limits_ordered_ok
            (conj eq_refl
               (step_targets_within_limits Sample.an_action
                  (Sample.readings (30 # 1) false)
                  SampleRuns.ready_constructed SampleRuns.limits_ordered_ok
                  eq_refl)))).
Defined.

Lemma step_reward_rule_witness :
  exists e' obs,
    _step Sample.JOINT_LIMITS Sample.an_action
          (Sample.readings (30 # 1) true) Sample.ready =
    (e', Ok (obs, 1%Z, false, tt)).
Proof.
exact (proj2 (step_reward_rule Sample.JOINT_LIMITS unit Z)
             Sample.an_action (Sample.readings (30 # 1) true) Sample.ready
             false SampleRuns.ready_constructed SampleRuns.limits_proper_ok
             eq_refl eq_refl).
Defined.

Lemma reset_clears_counter_and_flag_witness :
  constructed Sample.JOINT_LIMITS Sample.just_hit /\
  limits_proper Sample.JOINT_LIMITS /\
  frames_after_hit Sample.just_hit = 0%Z /\
  exists e' obs,
    _reset Sample.JOINT_LIMITS Sample.randint
           (Sample.readings (30 # 1) false) Sample.just_hit = (e', Ok obs) /\
    frames_after_hit e' = (-1)%Z /\ done e' = Some false.
Proof.
exact (conj SampleRuns.just_hit_constructed
         (conj SampleRuns.limits_proper_ok
            (conj eq_refl
               (reset_clears_counter_and_flag Sample.randint
                  (Sample.readings (30 # 1) false)
                  SampleRuns.just_hit_constructed
                  SampleRuns.limits_proper_ok)))).
Defined.

Lemma termination_flag_always_false_witness :
  Forall (fun r => exists obs reward, r = Ok (obs, reward, false, tt))
         (snd (run_steps Sample.JOINT_LIMITS Sample.trace_inputs
                 (fst (_reset Sample.JOINT_LIMITS Sample.randint
                              (Sample.readings (30 # 1) false)
                              Sample.fresh)))).
Proof.
refine (proj2 (proj2 (proj2
          (proj2 (termination_flag_always_false Sample.JOINT_LIMITS unit
                    Sample.randint)
                 (Sample.readings (30 # 1) false) Sample.fresh
                 Sample.trace_inputs SampleRuns.fresh_constructed)))
          SampleRuns.limits_proper_ok _).
repeat constructor.
Defined.

Lemma step_never_commands_arm_B_witness :
  constructed Sample.JOINT_LIMITS Sample.ready /\
  commanded_pose (snd (motors Sample.ready))
    (venv (fst (run_steps Sample.JOINT_LIMITS Sample.trace_inputs
                          Sample.ready))) =
  commanded_pose (snd (motors Sample.ready)) (venv Sample.ready).
Proof.
exact (conj SampleRuns.ready_constructed
         (proj2 (step_never_commands_arm_B SampleRuns.ready_constructed)
                Sample.trace_inputs)).
Defined.

Lemma reset_commands_arm_B_witness :
  constructed Sample.JOINT_LIMITS Sample.fresh /\
  randint_contract Sample.randint /\
  List.length (snd (motors Sample.fresh)) = 6%nat /\
  forall i m rest lo hi,
    nth_error (snd (motors Sample.fresh)) i = Some m ->
    nth_error REST_POS i = Some rest ->
    nth_error RANDOM_NOISE i = Some (lo, hi) ->
    exists r new,
      nth_error (fst (draws Sample.randint RANDOM_NOISE
                            (np_random Sample.fresh))) i = Some r /\
      (lo <= r < hi)%Z /\
      issued Sample.fresh
             (fst (_reset Sample.JOINT_LIMITS Sample.randint
                          (Sample.readings (30 # 1) false) Sample.fresh))
             new /\
      In (set_position_target m (inject_Z (rest + r))) new /\
      commanded m
        (venv (fst (_reset Sample.JOINT_LIMITS Sample.randint
                           (Sample.readings (30 # 1) false) Sample.fresh)))
        = Some (inject_Z (rest + r)) /\
      (inject_Z (rest + lo) <= inject_Z (rest + r) <= inject_Z (rest + hi))%Q.
Proof.
exact (conj SampleRuns.fresh_constructed
         (conj SampleRuns.randint_contract_ok
            (reset_commands_arm_B (Sample.readings (30 # 1) false)
               SampleRuns.fresh_constructed SampleRuns.randint_contract_ok))).
Defined.

Lemma step_before_reset_raises_witness :
  __init__ Sample.JOINT_LIMITS unit true 7%Z = Ok Sample.fresh /\
  limits_proper Sample.JOINT_LIMITS /\
  List.length Sample.an_action = 6%nat /\
  done Sample.fresh = None /\
  snd (_step Sample.JOINT_LIMITS Sample.an_action
             (Sample.readings (30 # 1) true) Sample.fresh) =
    Raise AttributeError /\
  frames_after_hit
    (fst (_step Sample.JOINT_LIMITS Sample.an_action
                (Sample.readings (30 # 1) true) Sample.fresh)) =
    next_counter (colliding (Sample.readings (30 # 1) true)) (-1) /\
  forall rd0 e1 obs0,
    _reset Sample.JOINT_LIMITS Sample.randint rd0 Sample.fresh =
      (e1, Ok obs0) ->
    exists e2 obs reward,
      _step Sample.JOINT_LIMITS Sample.an_action
            (Sample.readings (30 # 1) true) e1 =
      (e2, Ok (obs, reward, false, tt)).
Proof.
exact (conj SampleRuns.fresh_init
         (conj SampleRuns.limits_proper_ok
            (conj eq_refl
               (step_before_reset_raises Sample.randint true 7%Z
                  Sample.an_action (Sample.readings (30 # 1) true)
                  SampleRuns.fresh_init SampleRuns.limits_proper_ok
                  eq_refl)))).
Defined.

(** ** Further properties at the sample instance *)

Lemma init_returns_only_with_six_limits_witness :
  __init__ Sample.JOINT_LIMITS unit true 7%Z = Ok Sample.fresh /\
  (6 <= List.length Sample.JOINT_LIMITS)%nat /\
  List.length (diffs Sample.fresh) = 6%nat /\
  (List.length Sample.five_limits < 6)%nat /\
  __init__ Sample.five_limits unit true 7%Z <> Ok Sample.fresh.
Proof.
destruct (proj1 (init_returns_only_with_six_limits Sample.JOINT_LIMITS unit
                   true 7%Z) Sample.fresh SampleRuns.fresh_init)
  as (H1 & H2 & _).
refine (conj SampleRuns.fresh_init (conj H1 (conj H2 (conj (le_n 6) _)))).
exact (proj2 (init_returns_only_with_six_limits Sample.five_limits unit
                true 7%Z) (le_n 6) Sample.fresh).
Defined.

Lemma normalize_reads_six_entries_witness :
  (List.length Sample.short_action < 6)%nat /\
  _denormalize Sample.JOINT_LIMITS Sample.fresh Sample.short_action =
    Raise IndexError.
Proof.
assert (L : (List.length Sample.short_action < 6)%nat) by (cbn; lia).
exact (conj L
         (proj2 (proj2 (proj2 (normalize_reads_six_entries
                                 Sample.JOINT_LIMITS Sample.fresh
                                 Sample.short_action)) L))).
Defined.

Lemma step_short_action_raises_witness :
  (List.length Sample.short_action < 6)%nat /\
  _step Sample.JOINT_LIMITS Sample.short_action
        (Sample.readings (30 # 1) true) Sample.ready =
  (Sample.ready, Raise IndexError).
Proof.
assert (L : (List.length Sample.short_action < 6)%nat) by (cbn; lia).
exact (conj L
         (step_short_action_raises Sample.JOINT_LIMITS Sample.short_action
            (Sample.readings (30 # 1) true) Sample.ready L)).
Defined.

Lemma denormalize_normalize_roundtrip_witness :
  init_diffs Sample.JOINT_LIMITS = Ok (diffs Sample.fresh) /\
  limits_proper Sample.JOINT_LIMITS /\
  List.length Sample.an_action = 6%nat /\
  exists t n,
    _denormalize Sample.JOINT_LIMITS Sample.fresh Sample.an_action = Ok t /\
    _normalize Sample.JOINT_LIMITS Sample.fresh t = Ok n /\
    forall i a, nth_error Sample.an_action i = Some a ->
                exists y, nth_error n i = Some y /\ (y == a)%Q.
Proof.
exact (conj eq_refl
         (conj SampleRuns.limits_proper_ok
            (conj eq_refl
               (@denormalize_normalize_roundtrip Sample.JOINT_LIMITS unit Z
                  Sample.fresh Sample.an_action
                  eq_refl SampleRuns.limits_proper_ok eq_refl)))).
Defined.

Lemma step_sees_the_clamped_action_witness :
  _step Sample.JOINT_LIMITS (clip Sample.an_action (-1) 1)
        (Sample.readings (30 # 1) true) Sample.ready =
  _step Sample.JOINT_LIMITS Sample.an_action
        (Sample.readings (30 # 1) true) Sample.ready.
Proof.
exact (proj2 (proj2 (step_sees_the_clamped_action Sample.JOINT_LIMITS
                       unit Z Sample.an_action))
             (Sample.readings (30 # 1) true) Sample.ready).
Defined.

Lemma clamped_action_saturates_witness :
  exists t v,
    _denormalize Sample.JOINT_LIMITS Sample.ready
                 (clip Sample.an_action (-1) 1) = Ok t /\
    nth_error Sample.an_action 1 = Some (3 # 1) /\
    nth_error t 1 = Some v /\ (v == 125 # 1)%Q.
Proof.
destruct (_denormalize Sample.JOINT_LIMITS Sample.ready
                       (clip Sample.an_action (-1) 1)) as [t | x] eqn:Et;
  [| discriminate Et].
destruct (@clamped_action_saturates Sample.JOINT_LIMITS unit Z Sample.ready
            Sample.an_action t 1 (3 # 1) (-90 # 1, 125 # 1)
            eq_refl Et (le_S _ _ (le_S _ _ (le_S _ _ (le_S _ _ (le_n 2)))))
            eq_refl eq_refl) as (v & Hv & Hhi & _).
exists t, v; refine (conj eq_refl (conj eq_refl (conj Hv (Hhi _)))).
discriminate.
Defined.

Lemma step_commands_arm_A_witness :
  constructed Sample.JOINT_LIMITS Sample.ready /\
  limits_proper Sample.JOINT_LIMITS /\
  List.length Sample.an_action = 6%nat /\
  exists t new,
    _denormalize Sample.JOINT_LIMITS Sample.ready
                 (clip Sample.an_action (-1) 1) = Ok t /\
    issued Sample.ready
           (fst (_step Sample.JOINT_LIMITS Sample.an_action
                       (Sample.readings (30 # 1) false) Sample.ready)) new /\
    sim_steps new = 1%nat /\
    commanded_pose (fst (motors Sample.ready))
      (venv (fst (_step Sample.JOINT_LIMITS Sample.an_action
                        (Sample.readings (30 # 1) false) Sample.ready))) =
    map Some t.
Proof.
exact (conj SampleRuns.ready_constructed
         (conj SampleRuns.limits_proper_ok
            (conj eq_refl
               (step_commands_arm_A Sample.an_action
                  (Sample.readings (30 # 1) false)
                  SampleRuns.ready_constructed SampleRuns.limits_proper_ok
                  eq_refl)))).
Defined.


Lemma reset_call_sequence_witness :
  constructed Sample.JOINT_LIMITS Sample.just_hit /\
  limits_proper Sample.JOINT_LIMITS /\
  exists new,
    issued Sample.just_hit
           (fst (_reset Sample.JOINT_LIMITS Sample.randint
                        (Sample.readings (30 # 1) false) Sample.just_hit))
           new /\
    sim_steps new = 15%nat /\ ~ In is_colliding new.
Proof.
refine (conj SampleRuns.just_hit_constructed
          (conj SampleRuns.limits_proper_ok _)).
destruct (@reset_call_sequence Sample.JOINT_LIMITS unit Z Sample.randint
            (Sample.readings (30 # 1) false) Sample.just_hit
            SampleRuns.just_hit_constructed SampleRuns.limits_proper_ok)
  as (new & mid & H1 & _ & H3 & H4 & _).
exists new; auto.
Defined.

Lemma gotoPos_short_pose_witness :
  fst (motors Sample.ready) = robot_motors 0 /\
  (List.length Sample.short_action < 6)%nat /\
  snd (_gotoPos Sample.short_action Sample.ready) = Raise IndexError /\
  issued Sample.ready (fst (_gotoPos Sample.short_action Sample.ready))
         (target_calls (robot_motors 0) Sample.short_action).
Proof.
assert (L : (List.length Sample.short_action < 6)%nat) by (cbn; lia).
destruct (@gotoPos_short_pose unit Z Sample.short_action Sample.ready
            eq_refl L) as (H1 & H2 & _).
exact (conj eq_refl (conj L (conj H1 H2))).
Defined.

Lemma reward_rate_bound_witness :
  counter_ok (frames_after_hit Sample.ready) /\
  (4 * total_reward
         (rewards (snd (run_steps Sample.JOINT_LIMITS Sample.hold_inputs
                                  Sample.ready)))
   + cooling_left (frames_after_hit Sample.ready)
   <= Z.of_nat (List.length Sample.hold_inputs) + 3)%Z.
Proof.
assert (K : counter_ok (frames_after_hit Sample.ready))
  by (left; reflexivity).
exact (conj K (reward_rate_bound Sample.JOINT_LIMITS Sample.hold_inputs
                 Sample.ready K)).
Defined.

Lemma rewards_depend_on_collisions_only_witness :
  rewards (snd (run_steps Sample.JOINT_LIMITS Sample.hold_inputs
                          Sample.ready)) =
  rewards (snd (run_steps Sample.JOINT_LIMITS Sample.other_holds
                          Sample.ready)).
Proof.
refine (proj2 (@rewards_depend_on_collisions_only Sample.JOINT_LIMITS unit Z
                 Sample.hold_inputs Sample.other_holds
                 Sample.ready Sample.ready false false
                 SampleRuns.limits_proper_ok
                 SampleRuns.ready_constructed SampleRuns.ready_constructed
                 eq_refl eq_refl _ _ eq_refl eq_refl)).
- repeat constructor.
- repeat constructor.
Defined.

Lemma holding_contact_scores_every_fourth_step_witness :
  rewards (snd (run_steps Sample.JOINT_LIMITS Sample.eight_holds
                          Sample.ready)) =
    map Some [1; 0; 0; 0; 1; 0; 0; 0]%Z /\
  total_reward
    (rewards (snd (run_steps Sample.JOINT_LIMITS Sample.eight_holds
                             Sample.ready))) = 2%Z.
Proof.
refine (@holding_contact_scores_every_fourth_step Sample.JOINT_LIMITS unit Z
          Sample.eight_holds Sample.ready false 2
          SampleRuns.limits_proper_ok SampleRuns.ready_constructed
          eq_refl eq_refl _ eq_refl).
repeat constructor.
Defined.

Lemma steps_do_not_change_next_stance_witness :
  constructed Sample.JOINT_LIMITS Sample.ready /\
  commanded_pose (snd (motors Sample.ready))
    (venv (fst (_reset Sample.JOINT_LIMITS Sample.randint
                       (Sample.readings (45 # 1) false)
                       (fst (run_steps Sample.JOINT_LIMITS
                                       Sample.trace_inputs Sample.ready))))) =
  commanded_pose (snd (motors Sample.ready))
    (venv (fst (_reset Sample.JOINT_LIMITS Sample.randint
                       (Sample.readings (30 # 1) false) Sample.ready))).
Proof.
exact (conj SampleRuns.ready_constructed
         (proj2 (@steps_do_not_change_next_stance Sample.JOINT_LIMITS unit Z
                   Sample.randint Sample.trace_inputs
                   (Sample.readings (45 # 1) false)
                   (Sample.readings (30 # 1) false) Sample.ready
                   SampleRuns.ready_constructed))).
Defined.

Lemma seed_fixes_next_stance_witness :
  constructed Sample.JOINT_LIMITS Sample.fresh /\
  constructed Sample.JOINT_LIMITS Sample.just_hit /\
  (0 <= 42 < 2 ^ 32)%Z /\
  commanded_pose (robot_motors 1)
    (venv (fst (_reset Sample.JOINT_LIMITS Sample.randint
                       (Sample.readings (30 # 1) false)
                       (fst (_seed Sample.seed (Some 42%Z) 5%Z
                                   Sample.fresh))))) =
  commanded_pose (robot_motors 1)
    (venv (fst (_reset Sample.JOINT_LIMITS Sample.randint
                       (Sample.readings (45 # 1) true)
                       (fst (_seed Sample.seed (Some 42%Z) 9%Z
                                   Sample.just_hit))))).
Proof.
assert (R : (0 <= 42 < 2 ^ 32)%Z) by (split; [discriminate | reflexivity]).
exact (conj SampleRuns.fresh_constructed
         (conj SampleRuns.just_hit_constructed
            (conj R
               (proj2 (proj2
                  (proj1 (@seed_fixes_next_stance Sample.JOINT_LIMITS unit Z
                            Sample.seed Sample.randint 42%Z 5%Z 9%Z
                            (Sample.readings (30 # 1) false)
                            (Sample.readings (45 # 1) true)
                            Sample.fresh Sample.just_hit
                            SampleRuns.fresh_constructed
                            SampleRuns.just_hit_constructed) R)))))).
Defined.

Lemma nan_action_reaches_simulator_witness :
  constructed Sample.JOINT_LIMITS Sample.ready /\
  List.length Sample.nan_action = 6%nat /\
  nth_error Sample.nan_action 0 = Some WithNaN.NaN /\
  exists targets m,
    WithNaN.step_targets Sample.JOINT_LIMITS Sample.ready Sample.nan_action
    = Ok targets /\
    List.length targets = 6%nat /\
    nth_error (fst (motors Sample.ready)) 0 = Some m /\
    nth_error targets 0 = Some (m, WithNaN.NaN) /\
    forall lim, ~ WithNaN.within lim WithNaN.NaN.
Proof.
exact (conj SampleRuns.ready_constructed
         (conj eq_refl
            (conj eq_refl
               (@nan_action_reaches_simulator Sample.JOINT_LIMITS unit Z
                  Sample.ready Sample.nan_action 0
                  SampleRuns.ready_constructed eq_refl eq_refl)))).
Defined.
